(** * VideoMarkUp: the labeling page (app/labeling.py)

    A shallow embedding of the frame-grid addressing, the per-frame
    enhancement pipeline, the sequence-annotation store with its JSON
    persistence, and the mosaic composer of [app/labeling.py], with the
    properties its specification states about them.

    Conventions of the embedding:
    - Python integers are [Z]; sizes, list positions and loop counters that
      the code only ever uses non-negatively are [nat].
    - A Python [dict] is an insertion-ordered association list with the
      update-in-place-or-append behaviour of [d[k] = v] (module [PyDict]).
    - A raised exception is the [Raise] branch of [result].
    - The slider values of the transform configuration (Python floats) are
      idealised as rationals [Q].
    - Routines of third-party libraries (cv2, albumentations, json text
      encoding) and of the repository's [vtools] module are section
      variables or abstracted at the level stated where they appear; the
      routines of cv2 and albumentations may raise. Where a statement is
      about what the brightness/contrast routine computes, it is about the
      model [brightness_contrast_adjust_uint8] of the library's routine on
      8-bit frames. *)

From Stdlib Require Import ZArith QArith Qround Ascii String DecimalString DecimalZ.
From Stdlib Require Import Sorting.Sorted Sorting.Permutation.
From stdpp Require Import base list gmap strings sets.

(** ** Exceptions *)

Inductive exn :=
| ValueError
| AttributeError
| JSONDecodeError
| ZeroDivisionError
| IndexError
| Cv2Error.

Inductive result (A : Type) :=
| Ok (a : A)
| Raise (e : exn).
Arguments Ok {A} a.
Arguments Raise {A} e.

#[global] Instance result_ret : MRet result := fun _ a => Ok a.
#[global] Instance result_bind : MBind result := fun _ _ k r =>
  match r with
  | Ok a => k a
  | Raise e => Raise e
  end.

Fixpoint mapM_result {A B} (f : A -> result B) (l : list A) : result (list B) :=
  match l with
  | [] => Ok []
  | a :: l' => b ← f a; bs ← mapM_result f l'; Ok (b :: bs)
  end.

(** ** Python's [str(int)] and [int(str)] *)

Module PyInt.

#[local] Open Scope string_scope.

(** [str(z)]: the decimal digits, with a leading minus sign below zero. *)
Definition str (z : Z) : string := NilZero.string_of_int (Z.to_int z).

(** The ASCII whitespace [int] skips around a literal: tab, line feed,
    vertical tab, form feed, carriage return and space. Whitespace and
    digits beyond ASCII, which [int] also takes, are outside this model. *)
Definition is_space (a : ascii) : bool :=
  let n := nat_of_ascii a in
  ((9 <=? n)%nat && (n <=? 13)%nat) || (n =? 32)%nat.

Fixpoint lstrip (s : string) : string :=
  match s with
  | EmptyString => EmptyString
  | String a r => if is_space a then lstrip r else s
  end.

Fixpoint rstrip (s : string) : string :=
  match s with
  | EmptyString => EmptyString
  | String a r =>
      match rstrip r with
      | EmptyString => if is_space a then EmptyString else String a EmptyString
      | r' => String a r'
      end
  end.

Definition strip (s : string) : string := rstrip (lstrip s).

(** The digit part of an integer literal: at least one digit, and single
    underscores only between two digits. [after_digit] tells whether the
    character before [s] was a digit. *)
Fixpoint digits (after_digit : bool) (s : string) : option Decimal.uint :=
  match s with
  | EmptyString => if after_digit then Some Decimal.Nil else None
  | String a r =>
      if Ascii.eqb a "_"
      then (if after_digit then digits false r else None)
      else uint_of_char a (digits true r)
  end.

(** [int(s)] in base ten; [None] stands for the [ValueError]. *)
Definition int (s : string) : option Z :=
  match strip s with
  | EmptyString => None
  | String a r =>
      if Ascii.eqb a "-" then option_map (fun d => Z.of_int (Decimal.Neg d)) (digits false r)
      else if Ascii.eqb a "+" then option_map (fun d => Z.of_int (Decimal.Pos d)) (digits false r)
      else option_map (fun d => Z.of_int (Decimal.Pos d)) (digits false (String a r))
  end.

(** Strings made of decimal digits only. *)
Definition is_digit (a : ascii) : bool :=
  let n := nat_of_ascii a in (48 <=? n)%nat && (n <=? 57)%nat.

Fixpoint all_digits (s : string) : bool :=
  match s with
  | EmptyString => true
  | String a r => is_digit a && all_digits r
  end.

End PyInt.

(** ** Python dictionaries

    Keys are kept in insertion order; [d[k] = v] overwrites the value of a
    key already present, at its place, and appends a new key at the end. *)

Module PyDict.
Section dict.
Context {K V : Type} `{EqDecision K}.

(** [d.get(k)]: the value bound to [k], if any. *)
Fixpoint get (k : K) (d : list (K * V)) : option V :=
  match d with
  | [] => None
  | (k', v) :: d' => if decide (k = k') then Some v else get k d'
  end.

(** [k in d] *)
Definition mem (k : K) (d : list (K * V)) : bool :=
  match get k d with
  | Some _ => true
  | None => false
  end.

(** [d[k] = v] *)
Fixpoint set (k : K) (v : V) (d : list (K * V)) : list (K * V) :=
  match d with
  | [] => [(k, v)]
  | (k', v') :: d' =>
      if decide (k = k') then (k', v) :: d' else (k', v') :: set k v d'
  end.

(** [d.keys()] *)
Definition keys (d : list (K * V)) : list K := d.*1.
End dict.
End PyDict.

(** ** Python list operations used by the page *)

Module PyList.

(** [a < b] on lists of integers: the first differing position decides,
    and a proper prefix is smaller. *)
Fixpoint lt (a b : list Z) : bool :=
  match a, b with
  | [], [] => false
  | [], _ :: _ => true
  | _ :: _, [] => false
  | x :: a', y :: b' => if (x =? y)%Z then lt a' b' else (x <? y)%Z
  end.

(** [enumerate(l)] *)
Definition enumerate {A} (l : list A) : list (nat * A) :=
  imap (fun i x => (i, x)) l.

(** [sorted(l, key=key)]: a stable sort that compares keys with [<] only.
    An element goes in front of the first one whose key is not smaller
    than its own, so equal keys stay in their input order. *)
Section sorted.
Context {A B : Type} (ltb : B -> B -> bool) (key : A -> B).

Fixpoint insert (x : A) (l : list A) : list A :=
  match l with
  | [] => [x]
  | y :: l' => if ltb (key y) (key x) then y :: insert x l' else x :: y :: l'
  end.

Definition sorted (l : list A) : list A := foldr insert [] l.

(** The order a stable sort has to produce: by key, and among equal keys
    by the position [idx] the element had in the input. *)
Definition before (idx : A -> nat) (x y : A) : Prop :=
  ltb (key x) (key y) = true ∨ (key x = key y ∧ idx x < idx y).
End sorted.

(** [l[start:]], with a negative [start] counted from the end. *)
Definition slice_from {A} (start : Z) (l : list A) : list A :=
  let n := Z.of_nat (length l) in
  let s := if (start <? 0)%Z then Z.max 0 (n + start) else Z.min start n in
  drop (Z.to_nat s) l.

End PyList.

(** ** SequenceStore: the records, and add, list-recent and remove *)

(** A record is the four-element list
    [[first_frame, last_frame, track_id, visible_number]]. *)
Record seq_record := SeqRecord {
  first_frame : Z;
  last_frame : Z;
  track_id : Z;
  visible_number : Z
}.

Definition seq_fields (r : seq_record) : list Z :=
  [first_frame r; last_frame r; track_id r; visible_number r].

#[global] Instance seq_record_eq_dec : EqDecision seq_record.
Proof. solve_decision. Defined.

(** The store: track id to the list of its records. *)
Definition sequences := list (Z * list seq_record).

(** The three number inputs and the button of [adding_sequences]. *)
Record add_form := AddForm {
  visible_number_input : Z;
  first_frame_input : Z;
  last_frame_input : Z;
  add_pressed : bool
}.

Definition adding_sequences (form : add_form) (seqs : sequences) (tid : Z)
  : sequences :=
  if add_pressed form then
    let seqs1 := if PyDict.mem tid seqs then seqs else PyDict.set tid [] seqs in
    match PyDict.get tid seqs1 with
    | Some l =>
        PyDict.set tid
          (l ++ [SeqRecord (first_frame_input form) (last_frame_input form)
                           tid (visible_number_input form)])
          seqs1
    | None => seqs1
    end
  else seqs.

(** The rows [show_sequences] goes through, in order: the iterable of its
    [for] loop, [sorted(enumerate(sequences[track_id]), key=lambda x: x[1])[-lastk:]]. *)
Definition shown_rows (l : list seq_record) (lastk : Z) : list (nat * seq_record) :=
  PyList.slice_from (- lastk)
    (PyList.sorted PyList.lt (fun x => seq_fields x.2) (PyList.enumerate l)).

(** [show_sequences]: [pressed i] tells whether the button with key
    [remove_i] was clicked; the result is the list [remove]. *)
Definition show_sequences (pressed : nat -> bool) (seqs : sequences) (tid : Z)
    (lastk : Z) : list Z :=
  match PyDict.get tid seqs with
  | None => []
  | Some l =>
      (fun row => Z.of_nat row.1) <$>
        filter (fun row => pressed row.1 = true) (shown_rows l lastk)
  end.

(** The list comprehension of [labeling]:
    [[seq for i, seq in enumerate(l) if i not in set(remove_indices)]]. *)
Definition without_indices (remove_indices : list Z) (l : list seq_record)
  : list seq_record :=
  let removed : gset Z := list_to_set remove_indices in
  snd <$> filter (fun row => Z.of_nat row.1 ∉ removed) (PyList.enumerate l).

(** The removal step of [labeling] (lines 46-47). *)
Definition remove_sequences (remove_indices : list Z) (seqs : sequences) (tid : Z)
  : sequences :=
  if bool_decide (0 < length remove_indices)%nat && PyDict.mem tid seqs then
    match PyDict.get tid seqs with
    | Some l => PyDict.set tid (without_indices remove_indices l) seqs
    | None => seqs
    end
  else seqs.

(** The order of the specification on records: ascending by
    (first_frame, last_frame, track_id, visible_number). *)
Definition record_lt (a b : seq_record) : Prop :=
  (first_frame a < first_frame b)%Z
  ∨ (first_frame a = first_frame b
     ∧ ((last_frame a < last_frame b)%Z
        ∨ (last_frame a = last_frame b
           ∧ ((track_id a < track_id b)%Z
              ∨ (track_id a = track_id b
                 ∧ (visible_number a < visible_number b)%Z))))).

(** Rows in display order: a smaller record first, and of two rows with
    the same record the one stored earlier. *)
Definition row_before (x y : nat * seq_record) : Prop :=
  record_lt x.2 y.2 ∨ (x.2 = y.2 ∧ x.1 < y.1).

(** ** Persistence of the store as a JSON document *)

#[local] Set Warnings "-register-all".

(** The values [json.load] builds. An object keeps its members in document
    order. *)
Inductive pyval :=
| PNone
| PBool (b : bool)
| PInt (z : Z)
| PFloat (q : Q)
| PStr (s : string)
| PList (l : list pyval)
| PDict (members : list (string * pyval)).

(** A file, as far as [json.load] can tell: text that is a JSON document,
    or text that is not. The text encoding itself is the [json] library's
    and is not modelled: [json.dump] leaves the document it was given. *)
Inductive file_content :=
| JsonText (doc : pyval)
| OtherText (text : string).

Abbreviation filesystem := (gmap string file_content).

Definition json_load (c : file_content) : result pyval :=
  match c with
  | JsonText doc => Ok doc
  | OtherText _ => Raise JSONDecodeError
  end.

(** [doc.items()] *)
Definition items (doc : pyval) : result (list (string * pyval)) :=
  match doc with
  | PDict members => Ok members
  | _ => Raise AttributeError
  end.

(** The dict comprehension
    [{int(track_id): val for track_id, val in ....items()}]. *)
Fixpoint int_keys (members : list (string * pyval)) (acc : list (Z * pyval))
  : result (list (Z * pyval)) :=
  match members with
  | [] => Ok acc
  | (tid, val) :: rest =>
      match PyInt.int tid with
      | Some k => int_keys rest (PyDict.set k val acc)
      | None => Raise ValueError
      end
  end.

Definition load_sequences (file : string) (fs : filesystem)
  : result (list (Z * pyval)) :=
  match fs !! file with
  | Some content =>
      doc ← json_load content;
      members ← items doc;
      int_keys members []
  | None => Ok []
  end.

(** The store as the Python value it is: records are lists of integers. *)
Definition py_of_record (r : seq_record) : pyval := PList (PInt <$> seq_fields r).

Definition py_of_sequences (seqs : sequences) : list (Z * pyval) :=
  (fun kv => (kv.1, PList (py_of_record <$> kv.2))) <$> seqs.

(** [json.dump] of a dict with integer keys: each key is written as
    [str(key)], members in the order of the dict. *)
Definition json_dump (d : list (Z * pyval)) : file_content :=
  JsonText (PDict ((fun kv => (PyInt.str kv.1, kv.2)) <$> d)).

Definition save_sequences (seqs : sequences) (file : string) (fs : filesystem)
  : filesystem :=
  <[file := json_dump (py_of_sequences seqs)]> fs.

(** Reading a loaded value back as a typed store: every value a list of
    four-integer lists. *)
Definition record_of_py (v : pyval) : option seq_record :=
  match v with
  | PList [PInt a; PInt b; PInt c; PInt d] => Some (SeqRecord a b c d)
  | _ => None
  end.

Definition sequences_of_py (d : list (Z * pyval)) : option sequences :=
  mapM (fun kv =>
          match kv.2 with
          | PList rows => l ← mapM record_of_py rows; Some (kv.1, l)
          | _ => None
          end) d.

(** ** Frames, the enhancement pipeline and the grid of [show_images]

    A frame is a height by width by channel array, here a nested list; the
    type of an intensity is left open. *)

Record clahe_params := ClaheParams {
  clip_limit : Q;
  tile_grid_size : nat * nat
}.

(** The dict built by [choose_image_transforms]; [tf_clahe] is [None] when
    the checkbox is off. *)
Record image_transforms := ImageTransforms {
  tf_brightness : Q;
  tf_contrast : Q;
  tf_clahe : option clahe_params
}.

Definition has_shape {px} (h w c : nat) (img : list (list (list px))) : bool :=
  (length img =? h)%nat
  && forallb (fun row => (length row =? w)%nat
                         && forallb (fun p => (length p =? c)%nat) row) img.

(** The same as a proposition. *)
Definition shaped {px} (h w c : nat) (img : list (list (list px))) : Prop :=
  length img = h
  ∧ Forall (fun row => length row = w ∧ Forall (fun p => length p = c) row) img.

(** [img[r, c]] and [img[r, c, ch]], where they are within bounds. *)
Definition pixel_at {px} (img : list (list (list px))) (r c : nat)
  : option (list px) :=
  row ← img !! r; row !! c.

Definition value_at {px} (img : list (list (list px))) (r c ch : nat)
  : option px :=
  p ← pixel_at img r c; p !! ch.

(** [rel_no = (i - (N - 1) // 2) * stride] *)
Definition rel_no (N : nat) (stride : Z) (i : nat) : Z :=
  ((Z.of_nat i - (Z.of_nat N - 1) / 2) * stride)%Z.

(** [abs_no = _rel_no + frame_no] *)
Definition abs_no (_rel_no frame_no : Z) : Z := (_rel_no + frame_no)%Z.

(** [row_frame_no = frame_no + row * images_per_row * stride] *)
Definition row_frame_no (frame_no : Z) (images_per_row : nat) (stride : Z)
    (row : nat) : Z :=
  (frame_no + Z.of_nat row * Z.of_nat images_per_row * stride)%Z.

(** The frame indices the image grid of [labeling] asks for, row after
    row and left to right within a row. *)
Definition grid_abs_nos (frame_no : Z) (n_rows images_per_row : nat) (stride : Z)
  : list Z :=
  row ← seq 0 n_rows;
  (fun i => abs_no (rel_no images_per_row stride i)
                   (row_frame_no frame_no images_per_row stride row))
    <$> seq 0 images_per_row.

Definition get_caption (frame_no : Z) (show_caption frame_arrow : bool)
    (rel_no _rel_no : Z) : string :=
  let abs_no := abs_no _rel_no frame_no in
  if show_caption then
    if bool_decide (rel_no ≠ 0%Z) || negb frame_arrow then PyInt.str abs_no else "↑"
  else
    if bool_decide (rel_no ≠ 0%Z) || negb frame_arrow then "" else "↑".

Section frames.
Context {px : Type} (px0 : px).
#[local] Abbreviation array3 := (list (list (list px))).

(** The routines of cv2 and albumentations the page calls. Each of them
    may raise: [cv2.resize] does for an empty target size, for one. *)
Variable resize : array3 -> nat * nat -> result array3.
Variable brightness_contrast_adjust : array3 -> Q -> Q -> bool -> result array3.
Variable clahe : array3 -> Q -> nat * nat -> result array3.

(** [np.zeros((h, w, c))] *)
Definition zeros (h w c : nat) : array3 :=
  replicate h (replicate w (replicate c px0)).

(** [frame[:, :, ::-1]] *)
Definition flip_channels (frame : array3) : array3 :=
  (fun row : list (list px) => reverse <$> row) <$> frame.

(** The closure [get_frame] of [show_images]; [frame_no], [frames],
    [hsize], [wsize] and [image_transforms] are the variables it
    captures. *)
Definition get_frame (frame_no : Z) (frames : list array3) (hsize wsize : nat)
    (transforms : option image_transforms) (_rel_no : Z) : result array3 :=
  let abs_no := abs_no _rel_no frame_no in
  if bool_decide (abs_no < 0)%Z || bool_decide (abs_no >= Z.of_nat (length frames))%Z
  then Ok (zeros hsize wsize 3)
  else
    match frames !! Z.to_nat abs_no with
    | None => Raise IndexError
    | Some frame =>
        frame ← resize frame (hsize, wsize);
        frame ←
          match transforms with
          | Some tf =>
              let alpha := (1 + tf_brightness tf)%Q in
              let beta := tf_contrast tf in
              frame ← brightness_contrast_adjust frame alpha beta true;
              match tf_clahe tf with
              | Some c => clahe frame (clip_limit c) (tile_grid_size c)
              | None => Ok frame
              end
          | None => Ok frame
          end;
        Ok (flip_channels frame)
    end.

(** The pipeline as the specification words it: the stages in their
    fixed order, each applied to the result of the one before, as long as
    none of them fails. *)
Definition enhance_stages (hsize wsize : nat) (tf : image_transforms)
  : list (array3 -> result array3) :=
  [ (fun frame => resize frame (hsize, wsize));
    (fun frame =>
       brightness_contrast_adjust frame (1 + tf_brightness tf)%Q
                                  (tf_contrast tf) true) ]
  ++ match tf_clahe tf with
     | Some c => [ fun frame => clahe frame (clip_limit c) (tile_grid_size c) ]
     | None => []
     end
  ++ [ fun frame => Ok (flip_channels frame) ].

Definition run_stages (stages : list (array3 -> result array3)) (frame : array3)
  : result array3 :=
  foldl (fun acc stage => acc ≫= stage) (Ok frame) stages.

(** [show_images]: the frame and caption handed to [st.image] in each of
    the [N] columns. *)
Definition show_images (frame_no : Z) (frames : list array3) (N : nat)
    (stride : Z) (transforms : option image_transforms)
    (show_caption frame_arrow : bool) : result (list (array3 * string)) :=
  if (N =? 0)%nat then Raise ZeroDivisionError
  else
    let hsize := (800 / N)%nat in
    let wsize := hsize in
    mapM_result
      (fun i =>
         let rel_no := rel_no N stride i in
         frame ← get_frame frame_no frames hsize wsize transforms rel_no;
         Ok (frame, get_caption frame_no show_caption frame_arrow rel_no rel_no))
      (seq 0 N).

(** The image rows of [labeling] (lines 29-32). *)
Definition labeling_images (frame_no : Z) (frames : list array3)
    (n_rows images_per_row : nat) (stride : Z) (transforms : image_transforms)
  : result (list (list (array3 * string))) :=
  mapM_result
    (fun row =>
       show_images (row_frame_no frame_no images_per_row stride row) frames
         images_per_row stride (Some transforms) true (row =? 0)%nat)
    (seq 0 n_rows).

(** What a cell shows, said by the absolute index of its frame alone: a
    frame of the track resized, enhanced as configured and flipped, and the
    blank frame for any index that is none of the track. *)
Definition enhanced (hsize wsize : nat) (transforms : option image_transforms)
    (frame : array3) : result array3 :=
  resized ← resize frame (hsize, wsize);
  match transforms with
  | Some tf =>
      adjusted ← brightness_contrast_adjust resized (1 + tf_brightness tf)%Q
                                            (tf_contrast tf) true;
      match tf_clahe tf with
      | Some c =>
          equalized ← clahe adjusted (clip_limit c) (tile_grid_size c);
          Ok (flip_channels equalized)
      | None => Ok (flip_channels adjusted)
      end
  | None => Ok (flip_channels resized)
  end.

Definition cell_of_index (frames : list array3) (hsize wsize : nat)
    (transforms : option image_transforms) (index : Z) : result array3 :=
  match frames !! Z.to_nat index with
  | Some frame =>
      if bool_decide (0 ≤ index)%Z then enhanced hsize wsize transforms frame
      else Ok (zeros hsize wsize 3)
  | None => Ok (zeros hsize wsize 3)
  end.
End frames.

(** [cv2.resize] on top of an interpolation: it refuses a target size with
    a zero side and a source with no pixel. It serves to run the model on
    concrete frames. *)
Definition resize_checked {px} (interpolate : list (list (list px)) -> nat * nat
                                              -> list (list (list px)))
    (frame : list (list (list px))) (dsize : nat * nat)
  : result (list (list (list px))) :=
  if (dsize.1 =? 0)%nat || (dsize.2 =? 0)%nat
     || (length frame =? 0)%nat || (length (concat frame) =? 0)%nat
  then Raise Cv2Error
  else Ok (interpolate frame dsize).

(** albumentations' [brightness_contrast_adjust] on 8-bit frames. It is
    not code of the page: the model follows the library's routine for
    [uint8] arrays, which sends every value through a lookup table that
    scales it by [alpha], shifts it by [beta] times 255, the top of the
    8-bit range, when [beta_by_max] is set (by [beta] times the mean of the
    frame otherwise), cuts it to [0..255] and drops the fraction. The
    arithmetic is that of rationals. *)
Definition lut_value (alpha shift : Q) (v : Z) : Z :=
  Z.max 0 (Z.min 255 (Qfloor (alpha * inject_Z v + shift))).

Definition frame_values (img : list (list (list Z))) : list Z :=
  concat (concat img).

Definition frame_mean (img : list (list (list Z))) : Q :=
  inject_Z (foldr Z.add 0%Z (frame_values img))
  / inject_Z (Z.of_nat (length (frame_values img))).

Definition map_values {A B} (f : A -> B) (img : list (list (list A)))
  : list (list (list B)) :=
  (fun row : list (list A) => (fun p : list A => f <$> p) <$> row) <$> img.

Definition brightness_contrast_adjust_uint8 (img : list (list (list Z)))
    (alpha beta : Q) (beta_by_max : bool) : result (list (list (list Z))) :=
  let shift := if beta_by_max then (beta * 255)%Q else (beta * frame_mean img)%Q in
  Ok (map_values (lut_value alpha shift) img).

(** The brightness/contrast stage as the specification words it: the
    shift is [beta] times the greatest intensity of the frame itself. *)
Definition frame_max (img : list (list (list Z))) : Z :=
  foldr Z.max 0%Z (frame_values img).

Definition adjust_by_own_max (img : list (list (list Z))) (alpha beta : Q)
  : list (list (list Z)) :=
  map_values (lut_value alpha (beta * inject_Z (frame_max img))%Q) img.

(** A frame of 8-bit values. *)
Definition is_uint8 (img : list (list (list Z))) : Prop :=
  Forall (fun v => (0 ≤ v ≤ 255)%Z) (frame_values img).

(** ** MosaicComposer: [canvas]

    Arrays live in a heap, a list indexed by reference: [frames] holds the
    references of the input frames, [bbox.copy()] allocates a new array,
    and [vt.write_text] draws on the array it is given, in place. *)

Section canvas.
Context {px : Type} (px0 : px).
#[local] Abbreviation array3 := (list (list (list px))).

(** What [vt.write_text] leaves at row [r], column [c], channel [ch] of an
    array with the given content when it draws [text] on it. The routine
    is in the repository's [vtools] module. *)
Variable text_px : array3 -> string -> nat -> nat -> nat -> px.

Definition write_text (img : array3) (text : string) : array3 :=
  imap (fun r row =>
          imap (fun c p => imap (fun ch _ => text_px img text r c ch) p) row)
       img.

Definition width (img : array3) : nat :=
  match img with
  | [] => 0
  | row :: _ => length row
  end.

Definition channels (img : array3) : nat :=
  match img with
  | (p :: _) :: _ => length p
  | _ => 0
  end.

(** [image[r0:r1, c0:c1] = value]: the slices are cut to the bounds of
    [image]; [value] has to have the shape of the block (numpy would also
    stretch a smaller [value] over it, which [canvas] does not rely on and
    the model reports as the shape error). *)
Definition assign_block (image : array3) (r0 r1 c0 c1 : nat) (value : array3)
  : result array3 :=
  let a := Nat.min r0 (length image) in
  let b := Nat.min r1 (length image) in
  let c := Nat.min c0 (width image) in
  let d := Nat.min c1 (width image) in
  if has_shape (b - a) (d - c) (channels image) value
  then Ok (imap (fun r row =>
                   if bool_decide (a ≤ r < b)
                   then list_inserts c (value !!! (r - a)) row
                   else row)
                image)
  else Raise ValueError.

(** The loop of [canvas], from frame number [idx] on. Both the outcome
    and the heap it leaves are returned. *)
Fixpoint canvas_loop (n size idx : nat) (frames : list nat) (image : array3)
    (h : list array3) : result array3 * list array3 :=
  match frames with
  | [] => (Ok image, h)
  | bbox :: rest =>
      match h !! bbox with
      | None => (Raise IndexError, h)
      | Some pixels =>
          let img := length h in
          let h := h ++ [pixels] in
          let h := alter (fun a => write_text a (PyInt.str (Z.of_nat idx))) img h in
          if (n =? 0)%nat then (Raise ZeroDivisionError, h)
          else
            let i := (idx / n)%nat in
            let j := (idx mod n)%nat in
            match h !! img with
            | None => (Raise IndexError, h)
            | Some tile =>
                match assign_block image (i * size) ((i + 1) * size)
                                   (j * size) ((j + 1) * size) tile with
                | Raise e => (Raise e, h)
                | Ok image =>
                    if (idx =? n ^ 2 - 1)%nat then (Ok image, h)
                    else canvas_loop n size (S idx) rest image h
                end
            end
      end
  end.

Definition canvas (frames : list nat) (n size : nat) (h : list array3)
  : result array3 * list array3 :=
  canvas_loop n size 0 frames
    (replicate (size * n) (replicate (size * n) (replicate 3 px0))) h.
End canvas.

(** ** The rest of the page: one run of [labeling], the archive, the
    canvas button *)

(** What the store is expected to be: every track id bound once, and every
    record filed under the track id it carries. *)
Definition keys_unique (seqs : sequences) : Prop := NoDup (PyDict.keys seqs).

Definition ids_consistent (seqs : sequences) : Prop :=
  ∀ k l r, (k, l) ∈ seqs → r ∈ l → track_id r = k.

(** Lines 37 and 45-47 of [labeling]: the store after the add form and the
    remove buttons of one run ([show_sequences] with its default
    [lastk=5]). *)
Definition labeling_store (form : add_form) (pressed : nat -> bool)
    (seqs : sequences) (tid : Z) : sequences :=
  let seqs := adding_sequences form seqs tid in
  let remove_indices := show_sequences pressed seqs tid 5 in
  remove_sequences remove_indices seqs tid.

(** [step = (n_rows - 1) * images_per_row * stride], the step of the frame
    slider (line 24). *)
Definition frame_step (n_rows images_per_row : nat) (stride : Z) : Z :=
  ((Z.of_nat n_rows - 1) * Z.of_nat images_per_row * stride)%Z.

(** An archive as h5py shows it: the group names in the order [keys()]
    yields them, each with its array of frames. *)

(** [get_track_ids]: [[int(i) for i in file.keys()]]. *)
Definition get_track_ids {F} (archive : list (string * F)) : result (list Z) :=
  mapM_result (fun name =>
                 match PyInt.int name with
                 | Some k => Ok k
                 | None => Raise ValueError
                 end)
              (PyDict.keys archive).

(** [load_images]: [np.array(file[str(track_id)])]; [None] stands for the
    [KeyError] of a name that is not in the file. *)
Definition load_images {F} (tid : Z) (archive : list (string * F)) : option F :=
  PyDict.get (PyInt.str tid) archive.

Section canvas_button.
Context {px : Type} (px0 : px).
Variable text_px : list (list (list px)) -> string -> nat -> nat -> nat -> px.

(** The canvas of the sidebar button:
    [canvas(frames, n=int(np.sqrt(len(frames))))], with the default tile
    size 32. The square root of a length is exact enough in floating
    point for its integer part to be the integer square root. *)
Definition track_canvas (frames : list nat) (h : list (list (list (list px))))
  : result (list (list (list px))) * list (list (list (list px))) :=
  canvas px0 text_px frames (Nat.sqrt (length frames)) 32 h.
End canvas_button.

(** [choose_image_transforms]: the dict built from the two sliders, the
    checkbox and, when it is ticked, the three CLAHE sliders. *)
Definition choose_image_transforms (brightness contrast : Q) (use_clahe : bool)
    (clip_limit : Q) (tile_grid_height tile_grid_width : nat) : image_transforms :=
  ImageTransforms brightness contrast
    (if use_clahe
     then Some (ClaheParams clip_limit (tile_grid_height, tile_grid_width))
     else None).

(** * Properties *)

(** ** The key coercion: [int(str(k)) == k] *)

Module PyIntFacts.
Import PyInt.
#[local] Open Scope string_scope.

Example int_plain : int "42" = Some 42%Z. Proof. reflexivity. Qed.
Example int_padded : int "  -7 " = Some (-7)%Z. Proof. reflexivity. Qed.
Example int_grouped : int "1_000" = Some 1000%Z. Proof. reflexivity. Qed.
Example int_leading_zero : int "05" = Some 5%Z. Proof. reflexivity. Qed.
Example int_bad_group : int "1__0" = None. Proof. reflexivity. Qed.
Example int_empty : int "" = None. Proof. reflexivity. Qed.
Example int_word : int "abc" = None. Proof. reflexivity. Qed.
Example int_tab : int (String (ascii_of_nat 9) "4") = Some 4%Z.
Proof. reflexivity. Qed.
Example int_separator : int (String (ascii_of_nat 28) "4") = None.
Proof. reflexivity. Qed.
Example int_unit_separator : int (String (ascii_of_nat 31) "4") = None.
Proof. reflexivity. Qed.
Example int_nul : int (String "4" (String (ascii_of_nat 0) "")) = None.
Proof. reflexivity. Qed.
Example str_neg : str (-15)%Z = "-15". Proof. reflexivity. Qed.
Example str_zero : str 0%Z = "0". Proof. reflexivity. Qed.

Lemma digit_not_space a : is_digit a = true -> is_space a = false.
Proof.
  destruct a as [[|] [|] [|] [|] [|] [|] [|] [|]]; vm_compute; congruence.
Qed.

Lemma digit_not_mark a :
  is_digit a = true ->
  Ascii.eqb a "_" = false /\ Ascii.eqb a "-" = false /\ Ascii.eqb a "+" = false.
Proof.
  destruct a as [[|] [|] [|] [|] [|] [|] [|] [|]]; vm_compute; intuition congruence.
Qed.

Lemma all_digits_of_uint d : all_digits (NilEmpty.string_of_uint d) = true.
Proof. induction d; simpl; auto. Qed.

Lemma lstrip_digits a r :
  is_digit a = true -> lstrip (String a r) = String a r.
Proof. intros Ha. simpl. now rewrite (digit_not_space a Ha). Qed.

Lemma rstrip_digits s : all_digits s = true -> rstrip s = s.
Proof.
  induction s as [|a r IH]; simpl; [reflexivity|].
  intros [Ha Hr]%andb_prop. rewrite (IH Hr), (digit_not_space a Ha).
  now destruct r.
Qed.

Lemma digits_of_uint d b :
  (d <> Decimal.Nil \/ b = true) ->
  digits b (NilEmpty.string_of_uint d) = Some d.
Proof.
  revert b. induction d; intros b Hb; simpl;
    try (rewrite IHd by (now right); reflexivity).
  destruct Hb as [Hb| ->]; [now destruct Hb | reflexivity].
Qed.

Lemma int_of_unsigned d :
  d <> Decimal.Nil ->
  int (NilEmpty.string_of_uint d) = Some (Z.of_int (Decimal.Pos d)).
Proof.
  intros Hd. unfold int, strip.
  pose proof (all_digits_of_uint d) as Hall.
  pose proof (digits_of_uint d false (or_introl Hd)) as Hdig.
  destruct (NilEmpty.string_of_uint d) as [|a r] eqn:E.
  - now destruct d.
  - simpl in Hall. apply andb_prop in Hall as [Ha Hr].
    rewrite (lstrip_digits a r Ha).
    rewrite rstrip_digits by (simpl; now rewrite Ha, Hr).
    destruct (digit_not_mark a Ha) as (_ & -> & ->).
    now rewrite Hdig.
Qed.

Lemma int_of_signed d :
  d <> Decimal.Nil ->
  int (String "-" (NilEmpty.string_of_uint d)) = Some (Z.of_int (Decimal.Neg d)).
Proof.
  intros Hd. unfold int, strip.
  pose proof (all_digits_of_uint d) as Hall.
  change (lstrip (String "-" (NilEmpty.string_of_uint d)))
    with (String "-" (NilEmpty.string_of_uint d)).
  assert (Hr : rstrip (String "-" (NilEmpty.string_of_uint d))
               = String "-" (NilEmpty.string_of_uint d)).
  { simpl. rewrite (rstrip_digits _ Hall).
    destruct (NilEmpty.string_of_uint d) eqn:E; [now destruct d | reflexivity]. }
  rewrite Hr. change (Ascii.eqb "-" "-") with true. cbv iota.
  now rewrite (digits_of_uint d false (or_introl Hd)).
Qed.

Lemma to_uint_nonnil p : Pos.to_uint p <> Decimal.Nil.
Proof.
  intros E. pose proof (DecimalPos.Unsigned.of_to p) as H.
  rewrite E in H. discriminate H.
Qed.

(** The key coercion of the persistence boundary loses nothing. *)
Lemma int_str z : int (str z) = Some z.
Proof.
  unfold str. rewrite <- (DecimalZ.of_to z) at 2.
  destruct z as [|p|p]; [reflexivity| |]; simpl Z.to_int;
    pose proof (to_uint_nonnil p) as Hp.
  - unfold NilZero.string_of_int, NilZero.string_of_uint.
    destruct (Pos.to_uint p) eqn:E; try (now destruct Hp);
      rewrite <- E in *; rewrite int_of_unsigned by assumption; reflexivity.
  - unfold NilZero.string_of_int, NilZero.string_of_uint.
    destruct (Pos.to_uint p) eqn:E; try (now destruct Hp);
      rewrite <- E in *; rewrite int_of_signed by assumption; reflexivity.
Qed.

Lemma str_inj z1 z2 : str z1 = str z2 -> z1 = z2.
Proof.
  intros H. pose proof (int_str z1) as H1. rewrite H, int_str in H1. congruence.
Qed.

End PyIntFacts.

(** ** Dictionaries *)

Module PyDictFacts.
Section dict.
Context {K V : Type} `{EqDecision K}.
Implicit Types (k : K) (v : V) (d : list (K * V)).

Lemma get_set_eq k v d : PyDict.get k (PyDict.set k v d) = Some v.
Proof.
  induction d as [|[k' v'] d IH]; simpl.
  - by rewrite decide_True.
  - destruct (decide (k = k')) as [->|Hne]; simpl.
    + by rewrite decide_True.
    + by rewrite decide_False.
Qed.

Lemma get_set_ne k k' v d :
  k ≠ k' → PyDict.get k' (PyDict.set k v d) = PyDict.get k' d.
Proof.
  intros Hne. induction d as [|[k0 v0] d IH]; simpl.
  - rewrite decide_False; [done | congruence].
  - destruct (decide (k = k0)) as [->|Hk]; simpl.
    + rewrite !decide_False; [done | congruence | congruence].
    + destruct (decide (k' = k0)); [done | apply IH].
Qed.

Lemma get_None k d : PyDict.get k d = None ↔ k ∉ PyDict.keys d.
Proof.
  unfold PyDict.keys. induction d as [|[k' v'] d IH]; simpl.
  - split; [intros _; apply not_elem_of_nil | done].
  - rewrite not_elem_of_cons. destruct (decide (k = k')) as [->|Hne].
    + split; [done | intros [? _]; done].
    + rewrite IH. tauto.
Qed.

Lemma mem_true k d : PyDict.mem k d = true ↔ is_Some (PyDict.get k d).
Proof.
  unfold PyDict.mem. destruct (PyDict.get k d); split; done.
Qed.

(** A key that is not there yet goes to the end. *)
Lemma set_fresh k v d : k ∉ PyDict.keys d → PyDict.set k v d = d ++ [(k, v)].
Proof.
  unfold PyDict.keys. induction d as [|[k' v'] d IH]; simpl; [done|].
  rewrite not_elem_of_cons. intros [Hne Hnot].
  rewrite decide_False by done. by rewrite IH.
Qed.

(** Assignment changes no key of a dict that already has the key. *)
Lemma keys_set_present k v d :
  is_Some (PyDict.get k d) → PyDict.keys (PyDict.set k v d) = PyDict.keys d.
Proof.
  unfold PyDict.keys. induction d as [|[k' v'] d IH]; simpl.
  - intros [? ?]. done.
  - destruct (decide (k = k')) as [->|Hne]; simpl; [done|].
    intros Hs. f_equal. by apply IH.
Qed.
(** Assigning the value a key already has changes nothing. *)
Lemma set_same k v d :
  PyDict.get k d = Some v → PyDict.set k v d = d.
Proof.
  induction d as [|[k' v'] d IH]; simpl; [done|].
  destruct (decide (k = k')) as [->|Hne]; [by intros [= ->]|].
  intros Hd. by rewrite IH.
Qed.
End dict.
End PyDictFacts.

(** ** Loading and saving the store *)

Section persistence.
Implicit Types (seqs : sequences) (fs : filesystem) (file : string).

Lemma record_of_py_of_record r : record_of_py (py_of_record r) = Some r.
Proof. by destruct r. Qed.

Lemma sequences_of_py_of_sequences seqs :
  sequences_of_py (py_of_sequences seqs) = Some seqs.
Proof.
  unfold sequences_of_py, py_of_sequences. apply mapM_Some.
  apply Forall2_fmap_l, Forall_Forall2_diag, Forall_forall.
  intros [k l] _. simpl.
  assert (Hl : mapM record_of_py (py_of_record <$> l) = Some l).
  { apply mapM_Some, Forall2_fmap_l, Forall_Forall2_diag, Forall_forall.
    intros r _. apply record_of_py_of_record. }
  by rewrite Hl.
Qed.

(** The comprehension of [load_sequences] on keys that convert to
    pairwise different integers: every member is appended, in order. *)
Lemma int_keys_distinct members acc ks :
  Forall2 (fun m k => PyInt.int m.1 = Some k) members ks →
  NoDup (PyDict.keys acc ++ ks) →
  int_keys members acc = Ok (acc ++ zip ks members.*2).
Proof.
  intros Hks. revert acc.
  induction Hks as [|[s v] k members ks Hk _ IH]; intros acc Hnd; simpl.
  - by rewrite app_nil_r.
  - simpl in Hk. rewrite Hk.
    assert (Hfresh : k ∉ PyDict.keys acc).
    { apply NoDup_app in Hnd as (_ & Hd & _). intros Hin.
      apply (Hd k Hin). left. }
    rewrite (PyDictFacts.set_fresh k v acc Hfresh), IH.
    + by rewrite <- app_assoc.
    + unfold PyDict.keys in *. by rewrite fmap_app, <- app_assoc.
Qed.

(** In general a later member wins over an earlier one with the same
    integer key. *)
Lemma int_keys_get members acc store k :
  int_keys members acc = Ok store →
  PyDict.get k store =
    match last (filter (fun m => PyInt.int m.1 = Some k) members) with
    | Some m => Some m.2
    | None => PyDict.get k acc
    end.
Proof.
  revert acc. induction members as [|[s v] members IH]; intros acc; simpl.
  - by intros [= ->].
  - destruct (PyInt.int s) as [k0|] eqn:Hs; [|done].
    intros Hrest. rewrite (IH _ Hrest). rewrite filter_cons. simpl.
    destruct (decide (PyInt.int s = Some k)) as [Hk|Hk].
    + rewrite last_cons. assert (k0 = k) as -> by congruence.
      destruct (last _); [done|]. by rewrite PyDictFacts.get_set_eq.
    + destruct (last _); [done|].
      apply PyDictFacts.get_set_ne. congruence.
Qed.

Lemma int_keys_total members acc ks :
  Forall2 (fun m k => PyInt.int m.1 = Some k) members ks →
  ∃ store, int_keys members acc = Ok store.
Proof.
  intros Hks. revert acc.
  induction Hks as [|[s v] k members ks Hk _ IH]; intros acc; simpl.
  - by eexists.
  - simpl in Hk. rewrite Hk. apply IH.
Qed.

Lemma dumped_keys_convert (d : list (Z * pyval)) :
  Forall2 (fun m k => PyInt.int m.1 = Some k)
          ((fun kv => (PyInt.str kv.1, kv.2)) <$> d) d.*1.
Proof.
  induction d as [|[k v] d IH]; simpl; constructor; [|done].
  simpl. apply PyIntFacts.int_str.
Qed.

Lemma load_json_dump (d : list (Z * pyval)) file fs :
  NoDup (PyDict.keys d) →
  load_sequences file (<[file := json_dump d]> fs) = Ok d.
Proof.
  intros Hnd. unfold load_sequences. rewrite lookup_insert_eq. simpl.
  rewrite (int_keys_distinct _ [] _ (dumped_keys_convert d)) by done.
  simpl. f_equal. rewrite <- list_fmap_compose.
  apply zip_fst_snd.
Qed.

Lemma keys_py_of_sequences seqs :
  PyDict.keys (py_of_sequences seqs) = PyDict.keys seqs.
Proof.
  unfold PyDict.keys, py_of_sequences. rewrite <- list_fmap_compose.
  by apply list_fmap_ext.
Qed.
End persistence.

(** C4. For every store (integer track ids, each bound once, to a list of
    four-integer records), saving it to a path and loading that path back
    succeeds and yields the store itself, every track with its records in
    their order. In particular adding (first_frame 25, last_frame 30,
    visible_number -1) for track 5 to {5: [[10,20,5,3]]}, then saving and
    loading, yields {5: [[10,20,5,3],[25,30,5,-1]]}. *)
Theorem save_load_roundtrip :
  (∀ (seqs : sequences) (file : string) (fs : filesystem),
     NoDup (PyDict.keys seqs) →
     ∃ loaded,
       load_sequences file (save_sequences seqs file fs) = Ok loaded
       ∧ loaded = py_of_sequences seqs
       ∧ sequences_of_py loaded = Some seqs)
  ∧ (∀ (file : string) (fs : filesystem),
       let added :=
         adding_sequences (AddForm (-1) 25 30 true)
                          [(5%Z, [SeqRecord 10 20 5 3])] 5 in
       added = [(5%Z, [SeqRecord 10 20 5 3; SeqRecord 25 30 5 (-1)])]
       ∧ load_sequences file (save_sequences added file fs)
         = Ok [(5%Z, PList [PList [PInt 10; PInt 20; PInt 5; PInt 3];
                            PList [PInt 25; PInt 30; PInt 5; PInt (-1)]])]).
Proof.
  assert (Hgen : ∀ (seqs : sequences) (file : string) (fs : filesystem),
             NoDup (PyDict.keys seqs) →
             load_sequences file (save_sequences seqs file fs)
             = Ok (py_of_sequences seqs)).
  { intros seqs file fs Hnd. unfold save_sequences.
    apply load_json_dump. by rewrite keys_py_of_sequences. }
  split.
  - intros seqs file fs Hnd. exists (py_of_sequences seqs).
    split; [by apply Hgen|]. split; [done|].
    apply sequences_of_py_of_sequences.
  - intros file fs added. split; [reflexivity|].
    subst added. rewrite Hgen; [reflexivity|].
    apply NoDup_singleton.
Qed.

Lemma save_load_roundtrip_witness :
  let seqs : sequences :=
    [(5%Z, [SeqRecord 10 20 5 3; SeqRecord 4 2 5 (-1)]); ((-2)%Z, [])] in
  NoDup (PyDict.keys seqs)
  ∧ ∃ loaded,
      load_sequences "out/clip.json" (save_sequences seqs "out/clip.json" ∅)
      = Ok loaded
      ∧ loaded = py_of_sequences seqs
      ∧ sequences_of_py loaded = Some seqs.
Proof.
  intros seqs.
  assert (Hnd : NoDup (PyDict.keys seqs)).
  { apply (bool_decide_unpack _). vm_compute. reflexivity. }
  split; [exact Hnd|].
  exact (proj1 save_load_roundtrip seqs "out/clip.json" ∅ Hnd).
Defined.

(** C8. [load_sequences] on a path with no file returns the empty store;
    on a file holding a JSON object whose keys all read as integers it
    returns a store that binds the integer of every key, each to the value
    parsed for it (the later member where two keys read as the same
    integer; the members in document order where they do not); on a file
    that is not JSON the decode error reaches the caller. *)
Theorem load_sequences_cases (file : string) (fs : filesystem) :
  (fs !! file = None → load_sequences file fs = Ok [])
  ∧ (∀ members ks,
       fs !! file = Some (JsonText (PDict members)) →
       mapM PyInt.int members.*1 = Some ks →
       ∃ store,
         load_sequences file fs = Ok store
         ∧ (∀ k, PyDict.get k store
                 = snd <$> last (filter (fun m => PyInt.int m.1 = Some k) members))
         ∧ (NoDup ks → store = zip ks members.*2))
  ∧ (∀ text,
       fs !! file = Some (OtherText text) →
       load_sequences file fs = Raise JSONDecodeError).
Proof.
  unfold load_sequences. split; [|split].
  - by intros ->.
  - intros members ks -> Hks. simpl.
    apply mapM_Some, Forall2_fmap_l in Hks.
    destruct (int_keys_total members [] ks Hks) as [store Hstore].
    exists store. split; [done|]. split.
    + intros k. rewrite (int_keys_get _ _ _ k Hstore). simpl.
      by destruct (last _).
    + intros Hnd. rewrite (int_keys_distinct members [] ks Hks) in Hstore by done.
      by injection Hstore as <-.
  - by intros text ->.
Qed.

Lemma load_sequences_cases_witness :
  let doc := PDict [("7", PList [PList [PInt 1; PInt 2; PInt 7; PInt 0]]);
                    (" 07", PStr "later"); ("-3", PList [])] in
  let fs : filesystem := {[ "a.json" := JsonText doc; "b.json" := OtherText "{" ]} in
  load_sequences "none.json" fs = Ok []
  ∧ (∃ store,
       load_sequences "a.json" fs = Ok store
       ∧ PyDict.get 7%Z store = Some (PStr "later")
       ∧ PyDict.get (-3)%Z store = Some (PList []))
  ∧ load_sequences "b.json" fs = Raise JSONDecodeError.
Proof.
  intros doc fs. split; [|split].
  - apply (proj1 (load_sequences_cases "none.json" fs)). reflexivity.
  - destruct (proj1 (proj2 (load_sequences_cases "a.json" fs))
                _ [7%Z; 7%Z; (-3)%Z] eq_refl eq_refl)
      as (store & Hload & Hget & _).
    exists store. split; [exact Hload|].
    split; [exact (Hget 7%Z) | exact (Hget (-3)%Z)].
  - apply (proj2 (proj2 (load_sequences_cases "b.json" fs)) "{"). reflexivity.
Defined.

(** What [load_sequences] does with a document outside the schema: a key
    that is no integer stops the comprehension, and a document that is not
    an object has no [items]. *)
Example load_sequences_bad_key :
  load_sequences "a.json"
    {[ "a.json" := JsonText (PDict [("5", PList []); ("five", PList [])]) ]}
  = Raise ValueError.
Proof. reflexivity. Qed.

Example load_sequences_separator_key :
  load_sequences "a.json"
    {[ "a.json" := JsonText (PDict [(String (ascii_of_nat 28) "4", PList [])]) ]}
  = Raise ValueError.
Proof. reflexivity. Qed.

Example load_sequences_not_an_object :
  load_sequences "a.json" {[ "a.json" := JsonText (PList []) ]}
  = Raise AttributeError.
Proof. reflexivity. Qed.

(** ** Lists: comparison, stable sort, slices *)

Module PyListFacts.

Lemma lt_irrefl (a : list Z) : PyList.lt a a = false.
Proof.
  induction a as [|x a IH]; simpl; [done|]. by rewrite Z.eqb_refl.
Qed.

Lemma lt_trans (a b c : list Z) :
  PyList.lt a b = true → PyList.lt b c = true → PyList.lt a c = true.
Proof.
  revert b c. induction a as [|x a IH]; intros [|y b] [|z c]; simpl; try done.
  destruct (Z.eqb_spec x y) as [->|Hxy], (Z.eqb_spec y z) as [->|Hyz].
  - apply IH.
  - done.
  - intros Hlt _. destruct (Z.eqb_spec x z); [lia | done].
  - intros H1%Z.ltb_lt H2%Z.ltb_lt.
    destruct (Z.eqb_spec x z); [lia | apply Z.ltb_lt; lia].
Qed.

Lemma lt_total (a b : list Z) :
  PyList.lt a b = false → PyList.lt b a = false → a = b.
Proof.
  revert b. induction a as [|x a IH]; intros [|y b]; simpl; try done.
  destruct (Z.eqb_spec x y) as [->|Hxy].
  - rewrite Z.eqb_refl. intros H1 H2. f_equal. by apply IH.
  - destruct (Z.eqb_spec y x); [congruence|].
    intros H1%Z.ltb_ge H2%Z.ltb_ge. lia.
Qed.

Lemma enumerate_lookup {A} (l : list A) (i : nat) (x : A) :
  (i, x) ∈ PyList.enumerate l ↔ l !! i = Some x.
Proof.
  unfold PyList.enumerate. rewrite elem_of_lookup_imap. split.
  - intros (j & y & [= -> ->] & Hj). done.
  - intros Hi. by exists i, x.
Qed.

Lemma length_enumerate {A} (l : list A) :
  length (PyList.enumerate l) = length l.
Proof. apply length_imap. Qed.

Lemma imap_increasing {A} (l : list A) (n : nat) :
  StronglySorted (fun x y : nat * A => x.1 < y.1) (imap (fun i x => (n + i, x)) l).
Proof.
  revert n. induction l as [|a l IH]; intros n; simpl; constructor.
  - rewrite (imap_ext _ (fun i x => (S n + i, x))); [apply IH|].
    intros i x _. simpl. f_equal. lia.
  - apply Forall_forall. intros [j y] Hin.
    apply elem_of_lookup_imap in Hin as (i & z & [= -> ->] & _). simpl. lia.
Qed.

Lemma enumerate_increasing {A} (l : list A) :
  StronglySorted (fun x y : nat * A => x.1 < y.1) (PyList.enumerate l).
Proof. apply (imap_increasing l 0). Qed.

Section sorted.
Context {A B : Type} (ltb : B → B → bool) (key : A → B) (idx : A → nat).
Hypothesis ltb_trans : ∀ a b c, ltb a b = true → ltb b c = true → ltb a c = true.
Hypothesis ltb_total : ∀ a b, ltb a b = false → ltb b a = false → a = b.

Lemma insert_perm x l : PyList.insert ltb key x l ≡ₚ x :: l.
Proof.
  induction l as [|y l IH]; simpl; [done|].
  destruct (ltb (key y) (key x)); [|done].
  rewrite IH. apply Permutation_swap.
Qed.

Lemma sorted_perm l : PyList.sorted ltb key l ≡ₚ l.
Proof.
  induction l as [|x l IH]; simpl; [done|].
  by rewrite insert_perm, IH.
Qed.

Lemma insert_before x s :
  StronglySorted (PyList.before ltb key idx) s →
  Forall (fun y => idx x < idx y) s →
  StronglySorted (PyList.before ltb key idx) (PyList.insert ltb key x s).
Proof.
  induction 1 as [|y s Hs IH Hy]; intros Hx; simpl.
  - repeat constructor.
  - apply Forall_cons in Hx as [Hxy Hx].
    destruct (ltb (key y) (key x)) eqn:Hyx.
    + constructor; [by apply IH|].
      rewrite insert_perm. constructor; [by left | done].
    + assert (Hbxy : PyList.before ltb key idx x y).
      { destruct (ltb (key x) (key y)) eqn:E; [by left|].
        right. split; [by apply ltb_total | done]. }
      constructor; [by constructor|]. constructor; [done|].
      rewrite Forall_forall in Hy, Hx |- *. intros z Hz.
      specialize (Hy z Hz). specialize (Hx z Hz).
      destruct Hbxy as [Hlt|[Heq _]], Hy as [Hlt'|[Heq' _]].
      * left. by eapply ltb_trans.
      * left. by rewrite <- Heq'.
      * left. by rewrite Heq.
      * right. split; [congruence | done].
Qed.

Lemma sorted_before l :
  StronglySorted (fun x y => idx x < idx y) l →
  StronglySorted (PyList.before ltb key idx) (PyList.sorted ltb key l).
Proof.
  induction 1 as [|x l Hl IH Hx]; simpl; [constructor|].
  apply insert_before; [done|]. by rewrite sorted_perm.
Qed.
End sorted.

Lemma StronglySorted_weaken {A} (R S : A → A → Prop) (l : list A) :
  (∀ x y, R x y → S x y) → StronglySorted R l → StronglySorted S l.
Proof.
  intros HRS. induction 1 as [|x l _ IH Hx]; constructor; [done|].
  eapply Forall_impl; [exact Hx | auto].
Qed.

Lemma StronglySorted_filter {A} (R : A → A → Prop) (P : A → Prop)
    `{!∀ x, Decision (P x)} (l : list A) :
  StronglySorted R l → StronglySorted R (filter P l).
Proof.
  induction 1 as [|x l _ IH Hx]; [constructor|].
  rewrite filter_cons. destruct (decide (P x)); [|done].
  constructor; [done|]. rewrite Forall_forall in Hx |- *.
  intros y [_ Hy]%list_elem_of_filter. by apply Hx.
Qed.

Lemma StronglySorted_fmap {A B} (f : A → B) (R : B → B → Prop) (l : list A) :
  StronglySorted (fun x y => R (f x) (f y)) l → StronglySorted R (f <$> l).
Proof.
  induction 1 as [|x l _ IH Hx]; simpl; constructor; [done|].
  by apply Forall_fmap.
Qed.

Lemma enumerate_snd {A} (l : list A) : (PyList.enumerate l).*2 = l.
Proof.
  apply list_eq. intros i. unfold PyList.enumerate.
  rewrite list_lookup_fmap, list_lookup_imap. by destruct (l !! i).
Qed.

Lemma filter_agree {A} (P Q : A → Prop) `{!∀ x, Decision (P x)}
    `{!∀ x, Decision (Q x)} (l : list A) :
  (∀ x, x ∈ l → P x ↔ Q x) → filter P l = filter Q l.
Proof.
  induction l as [|x l IH]; intros Hl; [done|].
  rewrite !filter_cons, IH.
  - destruct (decide (P x)) as [HP|HP], (decide (Q x)) as [HQ|HQ]; try done.
    + destruct HQ. apply Hl; [left | done].
    + destruct HP. apply Hl; [left | done].
  - intros y Hy. apply Hl. by right.
Qed.

Lemma filter_all {A} (P : A → Prop) `{!∀ x, Decision (P x)} (l : list A) :
  (∀ x, x ∈ l → P x) → filter P l = l.
Proof.
  induction l as [|x l IH]; intros Hl; [done|].
  rewrite filter_cons, decide_True by (apply Hl; left).
  rewrite IH; [done|]. intros y Hy. apply Hl. by right.
Qed.

Lemma length_slice_from {A} (start : Z) (l : list A) :
  (start < 0)%Z →
  length (PyList.slice_from start l) = Nat.min (Z.to_nat (- start)) (length l).
Proof.
  intros Hneg. unfold PyList.slice_from.
  destruct (Z.ltb_spec start 0); [|lia]. rewrite length_drop. lia.
Qed.

Lemma slice_from_suffix {A} (start : Z) (l : list A) :
  ∃ skipped, l = skipped ++ PyList.slice_from start l.
Proof.
  unfold PyList.slice_from. eexists. symmetry. apply take_drop.
Qed.

End PyListFacts.

(** ** SequenceStore: list-recent and remove *)

Section sequence_store.
Implicit Types (seqs : sequences) (l : list seq_record) (tid : Z).

Lemma seq_fields_inj a b : seq_fields a = seq_fields b → a = b.
Proof. destruct a, b. unfold seq_fields. simpl. by intros [= -> -> -> ->]. Qed.

(** Python's comparison of two records is the four-field order. *)
Lemma seq_fields_lt a b :
  PyList.lt (seq_fields a) (seq_fields b) = true ↔ record_lt a b.
Proof.
  destruct a as [a1 a2 a3 a4], b as [b1 b2 b3 b4].
  unfold record_lt, seq_fields. simpl.
  destruct (Z.eqb_spec a1 b1), (Z.eqb_spec a2 b2), (Z.eqb_spec a3 b3),
    (Z.eqb_spec a4 b4); rewrite ?Z.ltb_lt; try (split; [|done]); lia.
Qed.

Lemma before_row_before (x y : nat * seq_record) :
  PyList.before PyList.lt (fun x => seq_fields x.2) fst x y → row_before x y.
Proof.
  intros [Hlt|[Heq Hidx]]; [left; by apply seq_fields_lt|].
  right. split; [by apply seq_fields_inj | done].
Qed.

Lemma shown_rows_sorted l :
  StronglySorted row_before
    (PyList.sorted PyList.lt (fun x => seq_fields x.2) (PyList.enumerate l)).
Proof.
  eapply PyListFacts.StronglySorted_weaken;
    [|apply PyListFacts.sorted_before with (idx := fst)].
  - intros x y. apply before_row_before.
  - intros a b c. apply PyListFacts.lt_trans.
  - apply PyListFacts.lt_total.
  - apply PyListFacts.enumerate_increasing.
Qed.
End sequence_store.

Section sequence_store_props.
Implicit Types (seqs : sequences) (l : list seq_record) (tid : Z).

(** C1. For a track of the store and [lastk >= 1], the rows that
    [show_sequences] lists are the last [lastk] rows (all of them when
    there are fewer) of the track's records sorted ascending by
    (first_frame, last_frame, track_id, visible_number), equal records in
    stored order; each row carries the index its record has in the stored
    list, and the indices returned for removal are those of the rows
    whose button was pressed. *)
Theorem show_sequences_recent (pressed : nat → bool) seqs tid l (lastk : Z) :
  PyDict.get tid seqs = Some l →
  (1 ≤ lastk)%Z →
  let rows := shown_rows l lastk in
  (∃ skipped,
      skipped ++ rows ≡ₚ PyList.enumerate l
      ∧ StronglySorted row_before (skipped ++ rows))
  ∧ length rows = Nat.min (Z.to_nat lastk) (length l)
  ∧ (∀ i r, (i, r) ∈ rows → l !! i = Some r)
  ∧ show_sequences pressed seqs tid lastk
    = (fun row => Z.of_nat row.1)
        <$> filter (fun row => pressed row.1 = true) rows.
Proof.
  intros Hget Hk rows.
  set (full := PyList.sorted PyList.lt (fun x : nat * seq_record => seq_fields x.2)
                             (PyList.enumerate l)).
  assert (Hperm : full ≡ₚ PyList.enumerate l) by apply PyListFacts.sorted_perm.
  assert (Hrows : rows = PyList.slice_from (- lastk) full) by reflexivity.
  destruct (PyListFacts.slice_from_suffix (- lastk) full) as [skipped Hfull].
  rewrite <- Hrows in Hfull.
  split; [|split; [|split]].
  - exists skipped. rewrite <- Hfull. split; [done | apply shown_rows_sorted].
  - rewrite Hrows, PyListFacts.length_slice_from by lia.
    rewrite Z.opp_involutive, Hperm, PyListFacts.length_enumerate. done.
  - intros i r Hin. apply PyListFacts.enumerate_lookup.
    rewrite <- Hperm, Hfull. apply elem_of_app. by right.
  - unfold show_sequences. by rewrite Hget.
Qed.

Lemma show_sequences_recent_witness :
  let l := [SeqRecord 10 20 5 3; SeqRecord 25 30 5 (-1); SeqRecord 10 20 5 3;
            SeqRecord 1 99 5 0] in
  let seqs : sequences := [(4%Z, []); (5%Z, l)] in
  let rows := shown_rows l 3 in
  PyDict.get 5%Z seqs = Some l
  ∧ rows = [(0, SeqRecord 10 20 5 3); (2, SeqRecord 10 20 5 3);
            (1, SeqRecord 25 30 5 (-1))]
  ∧ (∃ skipped,
        skipped ++ rows ≡ₚ PyList.enumerate l
        ∧ StronglySorted row_before (skipped ++ rows))
  ∧ length rows = 3
  ∧ show_sequences (fun i => Nat.eqb i 2) seqs 5 3 = [2%Z].
Proof.
  intros l seqs rows.
  pose proof (show_sequences_recent (fun i => Nat.eqb i 2) seqs 5%Z l 3%Z
                eq_refl ltac:(lia)) as (Hsorted & Hlen & _ & Hshow).
  split; [reflexivity|]. split; [reflexivity|].
  split; [exact Hsorted|]. split; [exact Hlen|]. exact Hshow.
Defined.

(** With [lastk = 0] the slice [[-0:]] is the whole list: nothing is cut. *)
Example shown_rows_lastk_zero :
  shown_rows [SeqRecord 3 4 5 0; SeqRecord 1 2 5 0] 0
  = [(1, SeqRecord 1 2 5 0); (0, SeqRecord 3 4 5 0)].
Proof. reflexivity. Qed.

(** Only the indices of the list matter to the comprehension. *)
Lemma without_indices_agree (ids ids' : list Z) l :
  (∀ i, i < length l → Z.of_nat i ∈ ids ↔ Z.of_nat i ∈ ids') →
  without_indices ids l = without_indices ids' l.
Proof.
  intros Hagree. unfold without_indices. f_equal.
  apply PyListFacts.filter_agree. intros [i r] Hin. simpl.
  apply PyListFacts.enumerate_lookup, lookup_lt_Some in Hin.
  rewrite !elem_of_list_to_set. by rewrite Hagree.
Qed.

Lemma without_indices_nil l : without_indices [] l = l.
Proof.
  unfold without_indices. rewrite PyListFacts.filter_all; [apply PyListFacts.enumerate_snd|].
  intros x _. set_solver.
Qed.

Lemma remove_sequences_present (ids : list Z) seqs tid l :
  PyDict.get tid seqs = Some l →
  remove_sequences ids seqs tid = PyDict.set tid (without_indices ids l) seqs.
Proof.
  intros Hget. unfold remove_sequences, PyDict.mem. rewrite Hget.
  destruct ids as [|z ids]; simpl; [|done].
  rewrite without_indices_nil. symmetry. by apply PyDictFacts.set_same.
Qed.

Lemma remove_sequences_absent (ids : list Z) seqs tid :
  PyDict.get tid seqs = None → remove_sequences ids seqs tid = seqs.
Proof.
  intros Hget. unfold remove_sequences, PyDict.mem. rewrite Hget.
  by rewrite andb_false_r.
Qed.

(** C3. The removal step binds the track to the records whose index in
    the stored list is not among the given ones, in their stored order
    ([kept] lists those indices, increasing); given indices that are no
    index of the list change nothing; the track stays bound, also when
    no record is left, no key is added or dropped, and the other tracks
    keep their lists. *)
Theorem remove_sequences_filters (ids : list Z) seqs tid :
  (∀ l, PyDict.get tid seqs = Some l →
     ∃ kept l',
       PyDict.get tid (remove_sequences ids seqs tid) = Some l'
       ∧ StronglySorted lt kept
       ∧ (∀ i, i ∈ kept ↔ i < length l ∧ Z.of_nat i ∉ ids)
       ∧ Forall2 (fun i r => l !! i = Some r) kept l')
  ∧ (∀ l extra,
       PyDict.get tid seqs = Some l →
       (∀ z, z ∈ extra → (z < 0 ∨ Z.of_nat (length l) ≤ z)%Z) →
       remove_sequences (ids ++ extra) seqs tid = remove_sequences ids seqs tid)
  ∧ PyDict.keys (remove_sequences ids seqs tid) = PyDict.keys seqs
  ∧ (∀ tid', tid' ≠ tid →
       PyDict.get tid' (remove_sequences ids seqs tid) = PyDict.get tid' seqs)
  ∧ (PyDict.get tid seqs = None → remove_sequences ids seqs tid = seqs).
Proof.
  split; [|split; [|split; [|split]]].
  - intros l Hget. rewrite (remove_sequences_present ids seqs tid l Hget).
    set (removed := list_to_set ids : gset Z).
    set (rows := filter (fun row : nat * seq_record => Z.of_nat row.1 ∉ removed)
                        (PyList.enumerate l)).
    exists rows.*1, rows.*2. split; [apply PyDictFacts.get_set_eq|].
    split; [|split].
    + apply PyListFacts.StronglySorted_fmap, PyListFacts.StronglySorted_filter,
        PyListFacts.enumerate_increasing.
    + intros i. rewrite list_elem_of_fmap. split.
      * intros ([j r] & -> & [Hnot Hin]%list_elem_of_filter). simpl in *.
        apply PyListFacts.enumerate_lookup in Hin.
        split; [by eapply lookup_lt_Some|].
        unfold removed in Hnot. by rewrite elem_of_list_to_set in Hnot.
      * intros [Hlt Hnot]. destruct (lookup_lt_is_Some_2 l i Hlt) as [r Hr].
        exists (i, r). split; [done|]. apply list_elem_of_filter. split.
        -- simpl. unfold removed. by rewrite elem_of_list_to_set.
        -- by apply PyListFacts.enumerate_lookup.
    + apply Forall2_fmap, Forall_Forall2_diag, Forall_forall.
      intros [i r] [_ Hin]%list_elem_of_filter.
      by apply PyListFacts.enumerate_lookup.
  - intros l extra Hget Hextra.
    rewrite !(remove_sequences_present _ seqs tid l Hget). f_equal.
    apply without_indices_agree. intros i Hi. rewrite elem_of_app.
    split; [|by left]. intros [Hin|Hin]; [done|].
    specialize (Hextra _ Hin). lia.
  - destruct (PyDict.get tid seqs) as [l|] eqn:Hget.
    + rewrite (remove_sequences_present ids seqs tid l Hget).
      apply PyDictFacts.keys_set_present. by rewrite Hget.
    + by rewrite remove_sequences_absent.
  - intros tid' Hne. destruct (PyDict.get tid seqs) as [l|] eqn:Hget.
    + rewrite (remove_sequences_present ids seqs tid l Hget).
      apply PyDictFacts.get_set_ne. congruence.
    + by rewrite remove_sequences_absent.
  - apply remove_sequences_absent.
Qed.

Lemma remove_sequences_filters_witness :
  let a := SeqRecord 10 20 5 3 in
  let b := SeqRecord 25 30 5 (-1) in
  let c := SeqRecord 1 99 5 0 in
  let seqs : sequences := [(4%Z, [a]); (5%Z, [a; b; c])] in
  PyDict.get 5%Z seqs = Some [a; b; c]
  ∧ (∃ kept l',
        PyDict.get 5%Z (remove_sequences [1%Z; 9%Z; (-1)%Z] seqs 5) = Some l'
        ∧ StronglySorted lt kept
        ∧ (∀ i, i ∈ kept ↔ i < 3 ∧ Z.of_nat i ∉ [1%Z; 9%Z; (-1)%Z])
        ∧ Forall2 (fun i r => [a; b; c] !! i = Some r) kept l')
  ∧ remove_sequences [1%Z; 9%Z; (-1)%Z] seqs 5 = [(4%Z, [a]); (5%Z, [a; c])]
  ∧ remove_sequences [0%Z] [(4%Z, [a])] 4 = [(4%Z, [])].
Proof.
  intros a b c seqs. split; [reflexivity|]. split.
  - exact (proj1 (remove_sequences_filters [1%Z; 9%Z; (-1)%Z] seqs 5%Z)
                 [a; b; c] eq_refl).
  - split; reflexivity.
Defined.
End sequence_store_props.

(** ** The frame grid and the enhancement pipeline *)

Section grid_facts.
Lemma mapM_result_Ok {A B} (f : A → result B) (l : list A) :
  (∀ x, x ∈ l → ∃ y, f x = Ok y) →
  ∃ ys, mapM_result f l = Ok ys ∧ Forall2 (fun x y => f x = Ok y) l ys.
Proof.
  induction l as [|x l IH]; intros Hl; simpl.
  - exists []. by split.
  - destruct (Hl x) as [y Hy]; [left|].
    destruct IH as (ys & Hys & Hall); [intros z Hz; apply Hl; by right|].
    exists (y :: ys). rewrite Hy, Hys. simpl. split; [done | by constructor].
Qed.

Lemma mapM_result_inv {A B} (f : A → result B) (l : list A) (ys : list B) :
  mapM_result f l = Ok ys → Forall2 (fun x y => f x = Ok y) l ys.
Proof.
  revert ys. induction l as [|x l IH]; intros ys; simpl.
  - intros [= <-]. constructor.
  - destruct (f x) as [y|e] eqn:Hy; [|discriminate]. simpl.
    destruct (mapM_result f l) as [zs|e]; [|discriminate]. simpl.
    intros [= <-]. constructor; [done | by apply IH].
Qed.

Lemma mapM_result_ext {A B} (f g : A → result B) (l : list A) :
  (∀ x, f x = g x) → mapM_result f l = mapM_result g l.
Proof.
  intros Hfg. induction l as [|x l IH]; simpl; [done|]. by rewrite Hfg, IH.
Qed.

Lemma length_bind_rows {A} (g : nat → list A) (N s n : nat) :
  (∀ r, length (g r) = N) → length (seq s n ≫= g) = n * N.
Proof.
  intros Hg. revert s. induction n as [|n IH]; intros s; [done|].
  simpl. rewrite length_app, Hg, IH. done.
Qed.

Lemma lookup_bind_rows {A} (g : nat → list A) (N s n r c : nat) :
  (∀ r, length (g r) = N) → r < n → c < N →
  (seq s n ≫= g) !! (r * N + c) = g (s + r) !! c.
Proof.
  intros Hg. revert s r. induction n as [|n IH]; intros s r Hr Hc; [lia|].
  simpl. destruct r as [|r].
  - rewrite lookup_app_l by (rewrite Hg; lia). by rewrite Nat.add_0_r.
  - rewrite lookup_app_r by (rewrite Hg; lia). rewrite Hg.
    replace (S r * N + c - N) with (r * N + c) by lia.
    rewrite IH by lia. by replace (S s + r) with (s + S r) by lia.
Qed.

Lemma length_concat_rows {A} (rows : list (list A)) (N : nat) :
  Forall (fun row => length row = N) rows →
  length (concat rows) = length rows * N.
Proof.
  induction 1 as [|row rows Hrow _ IH]; simpl; [done|].
  rewrite length_app, Hrow, IH. done.
Qed.

Lemma half_of_nat (N : nat) :
  1 ≤ N → Z.of_nat ((N - 1) / 2) = ((Z.of_nat N - 1) / 2)%Z.
Proof.
  intros HN. rewrite Nat2Z.inj_div, Nat2Z.inj_sub by done. done.
Qed.

(** The relative number is 0 in the column [(N-1)//2], and with a stride
    other than 0 nowhere else. *)
Lemma rel_no_zero (N : nat) (stride : Z) (i : nat) :
  1 ≤ N → stride ≠ 0%Z → rel_no N stride i = 0%Z ↔ i = (N - 1) / 2.
Proof.
  intros HN Hstride. unfold rel_no. rewrite <- (half_of_nat N HN). split.
  - intros [H|H]%Z.mul_eq_0; [lia | done].
  - intros ->. lia.
Qed.

Lemma half_lt (N : nat) : 1 ≤ N → (N - 1) / 2 < N.
Proof. intros HN. apply Nat.Div0.div_lt_upper_bound. lia. Qed.
End grid_facts.

Section frames_props.
Context {px : Type} (px0 : px).
#[local] Abbreviation array3 := (list (list (list px))).
Variable resize : array3 → nat * nat → result array3.
Variable brightness_contrast_adjust : array3 → Q → Q → bool → result array3.
Variable clahe : array3 → Q → nat * nat → result array3.

#[local] Abbreviation get_frame' :=
  (get_frame px0 resize brightness_contrast_adjust clahe).
#[local] Abbreviation show_images' :=
  (show_images px0 resize brightness_contrast_adjust clahe).
#[local] Abbreviation labeling_images' :=
  (labeling_images px0 resize brightness_contrast_adjust clahe).
#[local] Abbreviation enhanced' :=
  (enhanced resize brightness_contrast_adjust clahe).
#[local] Abbreviation cell_of_index' :=
  (cell_of_index px0 resize brightness_contrast_adjust clahe).

Lemma get_frame_blank frame_no frames hsize wsize tf _rel_no :
  (abs_no _rel_no frame_no < 0
   ∨ Z.of_nat (length frames) ≤ abs_no _rel_no frame_no)%Z →
  get_frame' frame_no frames hsize wsize tf _rel_no = Ok (zeros px0 hsize wsize 3).
Proof.
  intros Hout. unfold get_frame.
  destruct Hout as [Hneg|Hbig].
  - by rewrite (bool_decide_eq_true_2 _ Hneg).
  - rewrite (bool_decide_eq_true_2 (_ >= _)%Z) by lia. by rewrite orb_true_r.
Qed.

(** In range, [get_frame] is the enhancement of the frame at the index. *)
Lemma get_frame_in_range frame_no frames hsize wsize tf _rel_no frame :
  (0 ≤ abs_no _rel_no frame_no)%Z →
  frames !! Z.to_nat (abs_no _rel_no frame_no) = Some frame →
  get_frame' frame_no frames hsize wsize tf _rel_no
  = enhanced' hsize wsize tf frame.
Proof.
  intros Hpos Hframe. unfold get_frame, enhanced.
  pose proof (lookup_lt_Some _ _ _ Hframe) as Hlt.
  rewrite (bool_decide_eq_false_2 (_ < 0)%Z) by lia.
  rewrite (bool_decide_eq_false_2 (_ >= _)%Z) by lia.
  simpl. rewrite Hframe.
  destruct (resize frame (hsize, wsize)) as [resized|e]; simpl; [|done].
  destruct tf as [tf|]; simpl; [|done].
  destruct (brightness_contrast_adjust resized _ _ true) as [adjusted|e];
    simpl; [|done].
  destruct (tf_clahe tf) as [c|]; simpl; [|done].
  by destruct (clahe adjusted _ _).
Qed.

(** A cell is resolved from its absolute index alone. *)
Lemma get_frame_cell frame_no frames hsize wsize tf _rel_no :
  get_frame' frame_no frames hsize wsize tf _rel_no
  = cell_of_index' frames hsize wsize tf (abs_no _rel_no frame_no).
Proof.
  unfold cell_of_index.
  destruct (decide (abs_no _rel_no frame_no < 0)%Z) as [Hneg|Hpos].
  - rewrite get_frame_blank by (by left).
    rewrite (bool_decide_eq_false_2 (0 ≤ _)%Z) by lia. by case_match.
  - destruct (frames !! Z.to_nat (abs_no _rel_no frame_no)) as [frame|] eqn:Hframe.
    + rewrite (bool_decide_eq_true_2 (0 ≤ _)%Z) by lia.
      apply get_frame_in_range; [lia | done].
    + apply get_frame_blank. right.
      apply lookup_ge_None_1 in Hframe. lia.
Qed.

(** Where every frame of the track can be enhanced, every index resolves. *)
Lemma cell_of_index_Ok frames hsize wsize tf index :
  (∀ frame, frame ∈ frames → ∃ shown, enhanced' hsize wsize tf frame = Ok shown) →
  ∃ shown, cell_of_index' frames hsize wsize tf index = Ok shown.
Proof.
  intros Hframes. unfold cell_of_index.
  destruct (frames !! Z.to_nat index) as [frame|] eqn:Hframe; [|by eexists].
  case_bool_decide; [|by eexists].
  apply Hframes. by eapply list_elem_of_lookup_2.
Qed.

Lemma show_images_cells frame_no frames N stride tf show_caption frame_arrow
    cells :
  show_images' frame_no frames N stride tf show_caption frame_arrow = Ok cells →
  1 ≤ N
  ∧ length cells = N
  ∧ ∀ i, i < N →
      ∃ frame,
        cells !! i
        = Some (frame, get_caption frame_no show_caption frame_arrow
                         (rel_no N stride i) (rel_no N stride i))
        ∧ get_frame' frame_no frames (800 / N) (800 / N) tf (rel_no N stride i)
          = Ok frame.
Proof.
  unfold show_images.
  destruct (Nat.eqb_spec N 0) as [->|HN]; [discriminate|].
  intros Hall%mapM_result_inv.
  pose proof (Forall2_length _ _ _ Hall) as Hlen. rewrite length_seq in Hlen.
  split; [lia|]. split; [done|]. intros i Hi.
  destruct (Forall2_lookup_l _ _ _ i i Hall) as (cell & Hcell & Hf).
  { by apply lookup_seq_lt. }
  simpl in Hf.
  destruct (get_frame' frame_no frames (800 / N) (800 / N) tf
              (rel_no N stride i)) as [frame|e]; [|discriminate].
  simpl in Hf. injection Hf as <-. by exists frame.
Qed.

Lemma show_images_Ok frame_no frames N stride tf show_caption frame_arrow :
  1 ≤ N →
  (∀ frame, frame ∈ frames →
     ∃ shown, enhanced' (800 / N) (800 / N) tf frame = Ok shown) →
  ∃ cells,
    show_images' frame_no frames N stride tf show_caption frame_arrow = Ok cells.
Proof.
  intros HN Hframes. unfold show_images.
  destruct (Nat.eqb_spec N 0) as [->|_]; [lia|].
  set (f := fun i : nat => _).
  destruct (mapM_result_Ok f (seq 0 N)) as (cells & Hcells & _); [|by exists cells].
  intros i _. unfold f. rewrite get_frame_cell.
  destruct (cell_of_index_Ok frames (800 / N) (800 / N) tf
              (abs_no (rel_no N stride i) frame_no) Hframes) as [shown ->].
  by eexists.
Qed.

Lemma forallb_replicate {A} (f : A → bool) (n : nat) (x : A) :
  f x = true → forallb f (replicate n x) = true.
Proof. intros Hx. induction n as [|n IH]; simpl; [done|]. by rewrite Hx, IH. Qed.

Lemma has_shape_zeros h w c : has_shape h w c (zeros px0 h w c) = true.
Proof.
  unfold has_shape, zeros. rewrite length_replicate, Nat.eqb_refl. simpl.
  apply forallb_replicate. rewrite length_replicate, Nat.eqb_refl. simpl.
  apply forallb_replicate. by rewrite length_replicate, Nat.eqb_refl.
Qed.

Lemma zeros_lookup h w c r col ch :
  r < h → col < w → ch < c →
  value_at (zeros px0 h w c) r col ch = Some px0.
Proof.
  intros Hr Hc Hch. unfold value_at, pixel_at, zeros.
  rewrite lookup_replicate_2 by done. simpl.
  rewrite lookup_replicate_2 by done. simpl.
  by rewrite lookup_replicate_2.
Qed.

(** The stages of [get_frame] are those of the specification, in its
    order, whatever the three routines are. *)
Lemma get_frame_stages frame_no frames hsize wsize tf _rel_no frame :
  (0 ≤ abs_no _rel_no frame_no)%Z →
  frames !! Z.to_nat (abs_no _rel_no frame_no) = Some frame →
  get_frame' frame_no frames hsize wsize (Some tf) _rel_no
  = run_stages
      (enhance_stages resize brightness_contrast_adjust clahe hsize wsize tf)
      frame.
Proof.
  intros Hpos Hframe.
  rewrite (get_frame_in_range _ _ _ _ _ _ _ Hpos Hframe).
  unfold enhanced, enhance_stages, run_stages.
  destruct (tf_clahe tf) as [c|]; simpl.
  - destruct (resize frame (hsize, wsize)) as [resized|e]; simpl; [|done].
    destruct (brightness_contrast_adjust resized _ _ true) as [adjusted|e];
      simpl; [|done].
    by destruct (clahe adjusted _ _).
  - destruct (resize frame (hsize, wsize)) as [resized|e]; simpl; [|done].
    by destruct (brightness_contrast_adjust resized _ _ true).
Qed.

(** C2. For [n_rows], [images_per_row] and [stride] at least 1 and any
    [frame_no], the rows [labeling] renders are [n_rows] rows of
    [images_per_row] cells, and the cell in row [r], column [c] (from 0)
    is the one of the absolute frame index
    [frame_no + r*images_per_row*stride + (c - (images_per_row-1)//2)*stride]:
    it shows the frame of the track at that index, enhanced, or the blank
    frame if the track has no such index, under that index as its caption
    (the arrow in the middle of the first row). The rendering fails only
    where the enhancement of a cell does; where every frame of the track
    can be enhanced it yields all [n_rows * images_per_row] cells. *)
Theorem labeling_grid frame_no frames (n_rows images_per_row : nat)
    (stride : Z) tf :
  1 ≤ n_rows → 1 ≤ images_per_row → (1 ≤ stride)%Z →
  let cell_index (r c : nat) : Z :=
    (frame_no + Z.of_nat r * Z.of_nat images_per_row * stride
     + (Z.of_nat c - (Z.of_nat images_per_row - 1) / 2) * stride)%Z in
  let size := 800 / images_per_row in
  let caption (r c : nat) : string :=
    if (r =? 0)%nat && (c =? (images_per_row - 1) / 2)%nat then "↑"%string
    else PyInt.str (cell_index r c) in
  let cell (r c : nat) : result (array3 * string) :=
    frame ← cell_of_index' frames size size (Some tf) (cell_index r c);
    Ok (frame, caption r c) in
  labeling_images' frame_no frames n_rows images_per_row stride tf
  = mapM_result (fun r => mapM_result (cell r) (seq 0 images_per_row))
                (seq 0 n_rows)
  ∧ (∀ rows,
       labeling_images' frame_no frames n_rows images_per_row stride tf = Ok rows →
       length rows = n_rows
       ∧ length (concat rows) = n_rows * images_per_row
       ∧ ∀ r c, r < n_rows → c < images_per_row →
           ∃ row frame,
             rows !! r = Some row
             ∧ length row = images_per_row
             ∧ row !! c = Some (frame, caption r c)
             ∧ cell_of_index' frames size size (Some tf) (cell_index r c)
               = Ok frame)
  ∧ ((∀ frame, frame ∈ frames →
        ∃ shown, enhanced' size size (Some tf) frame = Ok shown) →
     ∃ rows,
       labeling_images' frame_no frames n_rows images_per_row stride tf = Ok rows)
  ∧ length (grid_abs_nos frame_no n_rows images_per_row stride)
    = n_rows * images_per_row
  ∧ (∀ r c, r < n_rows → c < images_per_row →
       grid_abs_nos frame_no n_rows images_per_row stride
         !! (r * images_per_row + c) = Some (cell_index r c)).
Proof.
  intros Hrows Hcols Hstride cell_index size caption cell.
  assert (Heq : labeling_images' frame_no frames n_rows images_per_row stride tf
                = mapM_result
                    (fun r => mapM_result (cell r) (seq 0 images_per_row))
                    (seq 0 n_rows)).
  { unfold labeling_images. apply mapM_result_ext. intros r.
    unfold show_images.
    destruct (Nat.eqb_spec images_per_row 0) as [->|_]; [lia|].
    apply mapM_result_ext. intros c. unfold cell.
    rewrite get_frame_cell.
    replace (abs_no (rel_no images_per_row stride c)
               (row_frame_no frame_no images_per_row stride r))
      with (cell_index r c)
      by (unfold abs_no, rel_no, row_frame_no, cell_index; lia).
    fold size. destruct (cell_of_index' frames size size (Some tf) _)
      as [frame|e]; simpl; [|done].
    do 2 f_equal. unfold get_caption, caption.
    replace (abs_no (rel_no images_per_row stride c)
               (row_frame_no frame_no images_per_row stride r))
      with (cell_index r c)
      by (unfold abs_no, rel_no, row_frame_no, cell_index; lia).
    pose proof (rel_no_zero images_per_row stride c Hcols ltac:(lia)) as Hzero.
    destruct (Nat.eqb_spec r 0) as [Hr|Hr];
      destruct (Nat.eqb_spec c ((images_per_row - 1) / 2)) as [Hc|Hc]; simpl.
    - rewrite bool_decide_eq_false_2; [done|]. intros Hne. by apply Hne, Hzero.
    - rewrite bool_decide_eq_true_2; [done|]. by intros ?%Hzero.
    - by rewrite orb_true_r.
    - by rewrite orb_true_r. }
  split; [exact Heq|]. split; [|split; [|split]].
  - intros rows Hok. rewrite Heq in Hok.
    apply mapM_result_inv in Hok.
    pose proof (Forall2_length _ _ _ Hok) as Hlen. rewrite length_seq in Hlen.
    assert (Hrow : ∀ r row, rows !! r = Some row →
              Forall2 (fun c y => cell r c = Ok y) (seq 0 images_per_row) row).
    { intros r row Hlook.
      destruct (Forall2_lookup_r _ _ _ r row Hok Hlook) as (r' & Hr' & Hf).
      apply lookup_seq in Hr' as [-> _]. by apply mapM_result_inv. }
    assert (Hlens : Forall (fun row => length row = images_per_row) rows).
    { apply Forall_lookup. intros r row Hlook.
      pose proof (Forall2_length _ _ _ (Hrow r row Hlook)) as Hl.
      by rewrite length_seq in Hl. }
    split; [done|]. split.
    { rewrite (length_concat_rows rows images_per_row Hlens). by rewrite <- Hlen. }
    intros r c Hr Hc.
    destruct (lookup_lt_is_Some_2 rows r) as [row Hlook]; [lia|].
    pose proof (Hrow r row Hlook) as Hcells.
    destruct (Forall2_lookup_l _ _ _ c c Hcells) as (shown & Hshown & Hf).
    { by apply lookup_seq_lt. }
    unfold cell in Hf.
    destruct (cell_of_index' frames size size (Some tf) (cell_index r c))
      as [frame|e]; [|discriminate].
    simpl in Hf. injection Hf as <-.
    exists row, frame. split; [done|]. split; [|done].
    pose proof (Forall2_length _ _ _ Hcells) as Hl. by rewrite length_seq in Hl.
  - intros Hframes. rewrite Heq.
    destruct (mapM_result_Ok
                (fun r => mapM_result (cell r) (seq 0 images_per_row))
                (seq 0 n_rows)) as (rows & Hok & _); [|by exists rows].
    intros r _.
    destruct (mapM_result_Ok (cell r) (seq 0 images_per_row))
      as (row & Hrow & _); [|by exists row].
    intros c _. unfold cell.
    destruct (cell_of_index_Ok frames size size (Some tf) (cell_index r c) Hframes)
      as [shown ->].
    by eexists.
  - set (g := fun row : nat =>
                (fun i => abs_no (rel_no images_per_row stride i)
                            (row_frame_no frame_no images_per_row stride row))
                  <$> seq 0 images_per_row).
    apply (length_bind_rows g _ 0 n_rows).
    intros r. unfold g. by rewrite length_fmap, length_seq.
  - intros r c Hr Hc.
    set (g := fun row : nat =>
                (fun i => abs_no (rel_no images_per_row stride i)
                            (row_frame_no frame_no images_per_row stride row))
                  <$> seq 0 images_per_row).
    assert (Hg : ∀ r, length (g r) = images_per_row).
    { intros r'. unfold g. by rewrite length_fmap, length_seq. }
    change (grid_abs_nos frame_no n_rows images_per_row stride)
      with (seq 0 n_rows ≫= g).
    rewrite (lookup_bind_rows g images_per_row 0 n_rows r c Hg Hr Hc).
    unfold g. rewrite list_lookup_fmap, lookup_seq_lt by done. simpl.
    f_equal. unfold abs_no, rel_no, row_frame_no, cell_index. lia.
Qed.

(** C5. A grid cell whose absolute frame index is below 0 or not below
    the number of frames is resolved without an error to the blank
    frame: [800 // N] rows and columns of three channels, every value
    zero, whatever the resize, brightness/contrast and equalization
    routines are (none of them is applied), and that frame is what a
    rendered row holds in the cell. *)
Theorem get_frame_out_of_range frame_no frames N stride tf
    show_caption frame_arrow i :
  i < N →
  (abs_no (rel_no N stride i) frame_no < 0
   ∨ Z.of_nat (length frames) ≤ abs_no (rel_no N stride i) frame_no)%Z →
  let size := 800 / N in
  let blank := zeros px0 size size 3 in
  get_frame' frame_no frames size size tf (rel_no N stride i) = Ok blank
  ∧ has_shape size size 3 blank = true
  ∧ (∀ r c ch, r < size → c < size → ch < 3 →
       value_at blank r c ch = Some px0)
  ∧ ∀ cells,
      show_images' frame_no frames N stride tf show_caption frame_arrow = Ok cells →
      ∃ caption, cells !! i = Some (blank, caption).
Proof.
  intros Hi Hout size blank.
  pose proof (get_frame_blank frame_no frames size size tf _ Hout) as Hblank.
  split; [done|]. split; [apply has_shape_zeros|].
  split; [intros r c ch; apply zeros_lookup|].
  intros cells Hcells.
  destruct (show_images_cells _ _ _ _ _ _ _ _ Hcells) as (_ & _ & Hcell).
  destruct (Hcell i Hi) as (frame & Hlook & Hframe).
  fold size in Hframe. rewrite Hblank in Hframe. injection Hframe as <-.
  by eexists.
Qed.
End frames_props.

Section library_stage.
#[local] Abbreviation frame8 := (list (list (list Z))).
Variable resize : frame8 → nat * nat → result frame8.
Variable clahe : frame8 → Q → nat * nat → result frame8.

Lemma fmap_id_Forall {A} (f : A → A) (l : list A) :
  Forall (fun v => f v = v) l → f <$> l = l.
Proof. induction 1 as [|v l Hv _ IH]; [done|]. rewrite fmap_cons. by f_equal. Qed.

Lemma Forall_concat_1 {A} (P : A → Prop) (ls : list (list A)) :
  Forall P (concat ls) → Forall (Forall P) ls.
Proof.
  induction ls as [|l ls IH]; simpl; [constructor|].
  intros [Hl Hls]%Forall_app. constructor; auto.
Qed.

Lemma map_values_id (f : Z → Z) (img : frame8) :
  Forall (fun v => f v = v) (frame_values img) → map_values f img = img.
Proof.
  unfold frame_values, map_values.
  intros Hall%Forall_concat_1%Forall_concat_1.
  apply fmap_id_Forall. eapply Forall_impl; [exact Hall|].
  intros row Hrow. simpl in *.
  apply fmap_id_Forall. eapply Forall_impl; [exact Hrow|].
  intros p Hp. by apply fmap_id_Forall.
Qed.

Lemma lut_value_neutral (alpha shift : Q) (v : Z) :
  Qeq alpha 1 → Qeq shift 0 → (0 ≤ v ≤ 255)%Z → lut_value alpha shift v = v.
Proof.
  intros Ha Hs Hv. unfold lut_value.
  assert (Heq : Qeq (alpha * inject_Z v + shift) (inject_Z v)).
  { rewrite Ha, Hs. ring. }
  rewrite (Qfloor_comp _ _ Heq), Qfloor_Z. lia.
Qed.

(** C7. For a frame index in range and a transform configuration,
    [get_frame] runs the stages in the fixed order: resize to the cell
    size, then the brightness/contrast routine with alpha = 1 +
    brightness, beta = contrast and [beta_by_max] set, then the adaptive
    equalization if and only if the clahe configuration is present, then
    the channel-order flip last. On an 8-bit frame the brightness/contrast
    stage sends every value [v] to [(1 + brightness) * v + contrast * 255]
    cut to [0..255]: the shift is the contrast times 255, the top of the
    8-bit range, whatever the intensities of the frame are. *)
Theorem get_frame_pipeline frame_no frames hsize wsize tf _rel_no frame :
  (0 ≤ abs_no _rel_no frame_no)%Z →
  frames !! Z.to_nat (abs_no _rel_no frame_no) = Some frame →
  let shown :=
    get_frame 0%Z resize brightness_contrast_adjust_uint8 clahe
              frame_no frames hsize wsize (Some tf) _rel_no in
  shown
  = run_stages
      (enhance_stages resize brightness_contrast_adjust_uint8 clahe hsize wsize tf)
      frame
  ∧ shown
    = (resized ← resize frame (hsize, wsize);
       let adjusted :=
         map_values
           (fun v => Z.max 0 (Z.min 255
                       (Qfloor ((1 + tf_brightness tf) * inject_Z v
                                + tf_contrast tf * 255))))
           resized in
       equalized ← match tf_clahe tf with
                   | Some c => clahe adjusted (clip_limit c) (tile_grid_size c)
                   | None => Ok adjusted
                   end;
       Ok (flip_channels equalized)).
Proof.
  intros Hpos Hframe shown. split.
  - by apply get_frame_stages.
  - unfold shown.
    rewrite (get_frame_in_range _ _ _ _ _ _ _ _ _ _ _ Hpos Hframe).
    unfold enhanced.
    destruct (resize frame (hsize, wsize)) as [resized|e]; simpl; [|done].
    destruct (tf_clahe tf) as [c|]; simpl; [|done].
    by destruct (clahe _ _ _).
Qed.

(** C9. For a frame index in range, brightness 0, contrast 0 and no
    clahe configuration, on an 8-bit frame: the brightness/contrast stage
    is the identity and the equalization stage is skipped, so the result
    is the resized frame with its channel order flipped and no intensity
    changed. With any brightness/contrast routine in place of the
    library's, that routine is called with alpha = 1 and beta = 0 on the
    resized frame and the equalization routine is not called. *)
Theorem get_frame_neutral frame_no frames hsize wsize tf _rel_no frame resized :
  (0 ≤ abs_no _rel_no frame_no)%Z →
  frames !! Z.to_nat (abs_no _rel_no frame_no) = Some frame →
  Qeq (tf_brightness tf) 0 → Qeq (tf_contrast tf) 0 → tf_clahe tf = None →
  resize frame (hsize, wsize) = Ok resized →
  is_uint8 resized →
  get_frame 0%Z resize brightness_contrast_adjust_uint8 clahe
            frame_no frames hsize wsize (Some tf) _rel_no
  = Ok (flip_channels resized)
  ∧ brightness_contrast_adjust_uint8 resized (1 + tf_brightness tf)
                                     (tf_contrast tf) true
    = Ok resized
  ∧ ∀ brightness_contrast_adjust,
      ∃ alpha beta,
        Qeq alpha 1 ∧ Qeq beta 0
        ∧ get_frame 0%Z resize brightness_contrast_adjust clahe
                    frame_no frames hsize wsize (Some tf) _rel_no
          = (adjusted ← brightness_contrast_adjust resized alpha beta true;
             Ok (flip_channels adjusted)).
Proof.
  intros Hpos Hframe Hb Hc Hclahe Hresized Huint8.
  assert (Halpha : Qeq (1 + tf_brightness tf) 1).
  { rewrite Hb. reflexivity. }
  assert (Hid : brightness_contrast_adjust_uint8 resized (1 + tf_brightness tf)
                  (tf_contrast tf) true = Ok resized).
  { unfold brightness_contrast_adjust_uint8. f_equal.
    apply map_values_id. eapply Forall_impl; [exact Huint8|].
    intros v Hv. apply lut_value_neutral; [done | | done].
    rewrite Hc. reflexivity. }
  split; [|split; [exact Hid|]].
  - rewrite (get_frame_in_range _ _ _ _ _ _ _ _ _ _ _ Hpos Hframe).
    unfold enhanced. rewrite Hresized.
    cbn -[brightness_contrast_adjust_uint8]. rewrite Hid. simpl.
    by rewrite Hclahe.
  - intros bca. exists (1 + tf_brightness tf)%Q, (tf_contrast tf).
    split; [done|]. split; [done|].
    rewrite (get_frame_in_range _ _ _ _ _ _ _ _ _ _ _ Hpos Hframe).
    unfold enhanced. rewrite Hresized. simpl. rewrite Hclahe.
    by destruct (bca resized _ _ true).
Qed.
End library_stage.

(** Concrete runs of the four statements above, on frames of 8-bit
    intensities, with a resize that refuses an empty size or source and
    otherwise leaves the frame as it is, and an equalization left as the
    identity. *)

Lemma labeling_grid_witness :
  let frames : list (list (list (list Z))) := [ [[[1; 2; 3]]]; [[[4; 5; 6]]] ]%Z in
  let tf := ImageTransforms (1 # 2) (1 # 10) None in
  let resize := resize_checked (fun f _ => f) in
  let clahe := fun (f : list (list (list Z))) (_ : Q) (_ : nat * nat) => Ok f in
  let blank := [ [[0; 0; 0]; [0; 0; 0]]; [[0; 0; 0]; [0; 0; 0]] ]%Z in
  1 ≤ 2 ∧ 1 ≤ 400 ∧ (1 ≤ 5)%Z
  ∧ ∃ rows,
      labeling_images 0%Z resize brightness_contrast_adjust_uint8 clahe
                      (-1004) frames 2 400 5 tf = Ok rows
      ∧ length (concat rows) = 2 * 400
      ∧ (∃ row, rows !! 0 = Some row
           ∧ row !! 199 = Some (blank, "↑"%string)
           ∧ row !! 200 = Some (blank, "-999"%string))
      ∧ (∃ row, rows !! 1 = Some row
           ∧ row !! 0 = Some ([[[34; 33; 31]]]%Z, "1"%string)
           ∧ row !! 1 = Some (blank, "6"%string)).
Proof.
  intros frames tf resize clahe blank.
  destruct (labeling_grid 0%Z resize brightness_contrast_adjust_uint8 clahe
              (-1004)%Z frames 2 400 5%Z tf ltac:(lia) ltac:(lia) ltac:(lia))
    as (_ & Hcells & Hok & _).
  split; [lia|]. split; [lia|]. split; [lia|].
  destruct Hok as [rows Hrows].
  { intros frame [->|[->|[]%elem_of_nil]%elem_of_cons]%elem_of_cons;
      eexists; vm_compute; reflexivity. }
  exists rows. split; [exact Hrows|].
  destruct (Hcells rows Hrows) as (_ & Hlen & Hcell).
  split; [exact Hlen|].
  destruct (Hcell 0 199 ltac:(lia) ltac:(lia)) as (row0 & f1 & Hrow0 & _ & Hc1 & Hf1).
  destruct (Hcell 0 200 ltac:(lia) ltac:(lia)) as (row0' & f2 & Hrow0' & _ & Hc2 & Hf2).
  destruct (Hcell 1 0 ltac:(lia) ltac:(lia)) as (row1 & f3 & Hrow1 & _ & Hc3 & Hf3).
  destruct (Hcell 1 1 ltac:(lia) ltac:(lia)) as (row1' & f4 & Hrow1' & _ & Hc4 & Hf4).
  rewrite Hrow0 in Hrow0'. injection Hrow0' as <-.
  rewrite Hrow1 in Hrow1'. injection Hrow1' as <-.
  vm_compute in Hf1, Hf2, Hf3, Hf4.
  injection Hf1 as <-. injection Hf2 as <-. injection Hf3 as <-. injection Hf4 as <-.
  split.
  - exists row0. split; [exact Hrow0|]. split; [exact Hc1 | exact Hc2].
  - exists row1. split; [exact Hrow1|]. split; [exact Hc3 | exact Hc4].
Defined.

Lemma get_frame_out_of_range_witness :
  let frames : list (list (list (list Z))) := [ [[[1; 2; 3]]]; [[[4; 5; 6]]] ]%Z in
  let tf := Some (ImageTransforms (1 # 2) (1 # 10) (Some (ClaheParams 4 (2, 2)))) in
  let resize := resize_checked (fun f _ => f) in
  let clahe := fun (f : list (list (list Z))) (_ : Q) (_ : nat * nat) => Ok f in
  let blank := [ [[0; 0; 0]; [0; 0; 0]]; [[0; 0; 0]; [0; 0; 0]] ]%Z in
  0 < 400
  ∧ (abs_no (rel_no 400 1 0) 10 < 0)%Z
  ∧ get_frame 0%Z resize brightness_contrast_adjust_uint8 clahe 10 frames 2 2 tf
      (rel_no 400 1 0)
    = Ok blank
  ∧ ∃ cells,
      show_images 0%Z resize brightness_contrast_adjust_uint8 clahe 10 frames
                  400 1 tf true true = Ok cells
      ∧ cells !! 0 = Some (blank, "-189"%string).
Proof.
  intros frames tf resize clahe blank.
  assert (Hout : (abs_no (rel_no 400 1 0) 10 < 0
                  ∨ Z.of_nat (length frames) ≤ abs_no (rel_no 400 1 0) 10)%Z).
  { left. vm_compute. reflexivity. }
  split; [lia|]. split; [vm_compute; reflexivity|].
  destruct (get_frame_out_of_range 0%Z resize brightness_contrast_adjust_uint8
              clahe 10%Z frames 400 1%Z tf true true 0 ltac:(lia) Hout)
    as (Hblank & _ & _ & Hrow).
  split; [exact Hblank|].
  destruct (show_images 0%Z resize brightness_contrast_adjust_uint8 clahe 10
              frames 400 1 tf true true) as [cells|e] eqn:Hcells;
    [|vm_compute in Hcells; discriminate Hcells].
  exists cells. split; [reflexivity|].
  destruct (Hrow cells eq_refl) as [caption Hcell].
  rewrite Hcell. f_equal. f_equal.
  apply (f_equal (fun r => match r with
                           | Ok cs => snd <$> cs !! 0
                           | Raise _ => None
                           end)) in Hcells.
  rewrite Hcell in Hcells. vm_compute in Hcells. by injection Hcells.
Defined.

(** The cell size is [800 // N]: with more than 800 cells in a row it is
    0, and the resize of the first frame in range fails the row. *)
Example show_images_too_many :
  let frames : list (list (list (list Z))) := [ [[[1; 2; 3]]]; [[[4; 5; 6]]] ]%Z in
  show_images 0%Z (resize_checked (fun f _ => f)) brightness_contrast_adjust_uint8
              (fun f _ _ => Ok f) 0 frames 801 1 None true true
  = Raise Cv2Error.
Proof. vm_compute. reflexivity. Qed.

Lemma get_frame_pipeline_witness :
  let frames : list (list (list (list Z))) := [ [[[1; 2; 3]]]; [[[4; 5; 6]]] ]%Z in
  let tf := ImageTransforms (1 # 2) (1 # 10) None in
  let resize := resize_checked (fun f _ => f) in
  let clahe := fun (f : list (list (list Z))) (_ : Q) (_ : nat * nat) => Ok f in
  (0 ≤ abs_no (-1) 2)%Z
  ∧ frames !! Z.to_nat (abs_no (-1) 2) = Some [[[4; 5; 6]]]%Z
  ∧ get_frame 0%Z resize brightness_contrast_adjust_uint8 clahe 2 frames 1 1
      (Some tf) (-1)
    = Ok [[[34; 33; 31]]]%Z.
Proof.
  intros frames tf resize clahe.
  assert (Hpos : (0 ≤ abs_no (-1) 2)%Z) by (vm_compute; discriminate).
  split; [exact Hpos|]. split; [reflexivity|].
  rewrite (proj2 (get_frame_pipeline resize clahe 2%Z frames 1 1 tf (-1)%Z
                    [[[4; 5; 6]]]%Z Hpos eq_refl)).
  vm_compute. reflexivity.
Defined.

(** The shift of the brightness/contrast stage is not a fraction of the
    frame's own greatest intensity: with contrast 1/2 a frame whose
    greatest intensity is 100 is shifted by 127, not by 50. *)
Lemma get_frame_pipeline_counterexample :
  let frames : list (list (list (list Z))) := [ [[[100; 50; 0]]] ]%Z in
  let tf := ImageTransforms 0 (1 # 2) None in
  let resize := resize_checked (fun f _ => f) in
  let clahe := fun (f : list (list (list Z))) (_ : Q) (_ : nat * nat) => Ok f in
  resize [[[100; 50; 0]]]%Z (1, 1) = Ok [[[100; 50; 0]]]%Z
  ∧ frame_max [[[100; 50; 0]]]%Z = 100%Z
  ∧ flip_channels
      (adjust_by_own_max [[[100; 50; 0]]]%Z (1 + tf_brightness tf) (tf_contrast tf))
    = [[[50; 100; 150]]]%Z
  ∧ get_frame 0%Z resize brightness_contrast_adjust_uint8 clahe 0 frames 1 1
      (Some tf) 0
    = Ok [[[127; 177; 227]]]%Z
  ∧ get_frame 0%Z resize brightness_contrast_adjust_uint8 clahe 0 frames 1 1
      (Some tf) 0
    ≠ Ok (flip_channels
            (adjust_by_own_max [[[100; 50; 0]]]%Z (1 + tf_brightness tf)
                               (tf_contrast tf))).
Proof.
  intros frames tf resize clahe.
  split; [reflexivity|]. split; [reflexivity|]. split; [vm_compute; reflexivity|].
  split; [vm_compute; reflexivity|].
  vm_compute. discriminate.
Qed.

Lemma get_frame_neutral_witness :
  let frames : list (list (list (list Z))) := [ [[[1; 2; 3]]]; [[[4; 255; 0]]] ]%Z in
  let tf := ImageTransforms 0 (0 # 7) None in
  let resize := resize_checked (fun f _ => f) in
  let clahe := fun (f : list (list (list Z))) (_ : Q) (_ : nat * nat) => Ok f in
  (0 ≤ abs_no (-1) 2)%Z
  ∧ frames !! Z.to_nat (abs_no (-1) 2) = Some [[[4; 255; 0]]]%Z
  ∧ Qeq (tf_brightness tf) 0 ∧ Qeq (tf_contrast tf) 0 ∧ tf_clahe tf = None
  ∧ resize [[[4; 255; 0]]]%Z (1, 1) = Ok [[[4; 255; 0]]]%Z
  ∧ is_uint8 [[[4; 255; 0]]]%Z
  ∧ get_frame 0%Z resize brightness_contrast_adjust_uint8 clahe 2 frames 1 1
      (Some tf) (-1)
    = Ok [[[0; 255; 4]]]%Z.
Proof.
  intros frames tf resize clahe.
  assert (Hpos : (0 ≤ abs_no (-1) 2)%Z) by (vm_compute; discriminate).
  assert (Huint8 : is_uint8 [[[4; 255; 0]]]%Z).
  { unfold is_uint8. simpl. repeat constructor; lia. }
  split; [exact Hpos|]. split; [reflexivity|].
  split; [reflexivity|]. split; [reflexivity|]. split; [reflexivity|].
  split; [reflexivity|]. split; [exact Huint8|].
  exact (proj1 (get_frame_neutral resize clahe 2%Z frames 1 1 tf (-1)%Z
                  [[[4; 255; 0]]]%Z [[[4; 255; 0]]]%Z
                  Hpos eq_refl eq_refl eq_refl eq_refl eq_refl Huint8)).
Defined.

(** ** The mosaic *)

Section arithmetic.
Lemma div_block (R s i : nat) : 0 < s → (i * s ≤ R < (i + 1) * s ↔ R / s = i).
Proof.
  intros Hs. split.
  - intros [H1 H2]. symmetry. apply (Nat.div_unique R s i (R - i * s)); lia.
  - intros <-. pose proof (Nat.div_mod_eq R s).
    pose proof (Nat.mod_upper_bound R s). lia.
Qed.

Lemma sub_block (R s : nat) : R - (R / s) * s = R mod s.
Proof. pose proof (Nat.div_mod_eq R s). lia. Qed.

Lemma tile_div (q j n : nat) :
  j < n → (q * n + j) / n = q ∧ (q * n + j) mod n = j.
Proof.
  intros Hj. split.
  - symmetry. apply (Nat.div_unique _ n q j); lia.
  - symmetry. apply (Nat.mod_unique _ n q j); lia.
Qed.

Lemma tile_lt (R C s n : nat) :
  R < n * s → C < n * s → (R / s) * n + C / s < n * n.
Proof.
  intros HR HC.
  assert (0 < s) by (destruct s; lia).
  assert (R / s < n) by (apply Nat.Div0.div_lt_upper_bound; lia).
  assert (C / s < n) by (apply Nat.Div0.div_lt_upper_bound; lia).
  nia.
Qed.

Lemma idx_div_lt (idx n : nat) : idx < n * n → idx / n < n ∧ idx mod n < n.
Proof.
  intros H. assert (0 < n) by (destruct n; lia). split.
  - apply Nat.Div0.div_lt_upper_bound; lia.
  - apply Nat.mod_upper_bound. lia.
Qed.
End arithmetic.

Section shapes.
Context {px : Type}.
Implicit Types (img : list (list (list px))).

Lemma forallb_Forall {A} (f : A → bool) (l : list A) :
  forallb f l = true ↔ Forall (fun x => f x = true) l.
Proof.
  induction l as [|x l IH]; simpl.
  - split; [constructor | done].
  - rewrite andb_true_iff, Forall_cons, IH. done.
Qed.

Lemma has_shape_shaped h w c img : has_shape h w c img = true ↔ shaped h w c img.
Proof.
  unfold has_shape, shaped.
  rewrite andb_true_iff, Nat.eqb_eq, forallb_Forall.
  apply and_iff_compat_l, Forall_proper; [|done].
  intros row. rewrite andb_true_iff, Nat.eqb_eq, forallb_Forall.
  apply and_iff_compat_l, Forall_proper; [|done].
  intros p. apply Nat.eqb_eq.
Qed.

Lemma shaped_row h w c img r :
  shaped h w c img → r < h →
  ∃ row, img !! r = Some row ∧ length row = w ∧ Forall (fun p => length p = c) row.
Proof.
  intros [Hlen Hrows] Hr.
  destruct (lookup_lt_is_Some_2 img r) as [row Hrow]; [lia|].
  exists row. split; [done|].
  by apply (proj1 (Forall_lookup _ _) Hrows r row).
Qed.

Lemma shaped_pixel h w c img r col :
  shaped h w c img → r < h → col < w →
  ∃ p, pixel_at img r col = Some p ∧ length p = c.
Proof.
  intros Himg Hr Hc.
  destruct (shaped_row h w c img r Himg Hr) as (row & Hrow & Hlen & Hpx).
  destruct (lookup_lt_is_Some_2 row col) as [p Hp]; [lia|].
  exists p. unfold pixel_at. rewrite Hrow. simpl. split; [done|].
  by apply (proj1 (Forall_lookup _ _) Hpx col p).
Qed.

Lemma shaped_replicate h w c (v : px) :
  shaped h w c (replicate h (replicate w (replicate c v))).
Proof.
  split; [apply length_replicate|].
  apply Forall_replicate. split; [apply length_replicate|].
  apply Forall_replicate, length_replicate.
Qed.
End shapes.

Section canvas_facts.
Context {px : Type} (px0 : px).
#[local] Abbreviation array3 := (list (list (list px))).
Variable text_px : array3 → string → nat → nat → nat → px.

(** Drawing in place changes values, never the shape. *)
Lemma shaped_write_text h w c (img : array3) text :
  shaped h w c img → shaped h w c (write_text text_px img text).
Proof.
  intros [Hlen Hrows]. unfold write_text. split; [by rewrite length_imap|].
  apply Forall_lookup. intros r row'. rewrite list_lookup_imap.
  destruct (img !! r) as [row|] eqn:Hrow; simpl; [|done]. intros [= <-].
  destruct (proj1 (Forall_lookup _ _) Hrows r row Hrow) as [Hw Hpx].
  split; [by rewrite length_imap|].
  apply Forall_lookup. intros col p'. rewrite list_lookup_imap.
  destruct (row !! col) as [p|] eqn:Hp; simpl; [|done]. intros [= <-].
  rewrite length_imap. by apply (proj1 (Forall_lookup _ _) Hpx col p).
Qed.

Lemma square_width N c (image : array3) : shaped N N c image → width image = N.
Proof.
  intros [Hlen Hrows]. destruct image as [|row image]; simpl in *; [done|].
  by apply Forall_cons in Hrows as [[? _] _].
Qed.

Lemma square_channels N c (image : array3) :
  shaped N N c image → 0 < N → channels image = c.
Proof.
  intros [Hlen Hrows] HN.
  destruct image as [|row image]; simpl in *; [lia|].
  apply Forall_cons in Hrows as [[Hw Hpx] _].
  destruct row as [|p row]; simpl in *; [lia|].
  by apply Forall_cons in Hpx as [? _].
Qed.

(** Writing a block that lies within a square image. *)
Lemma assign_block_square N s (image tile : array3) r0 c0 :
  shaped N N 3 image → shaped s s 3 tile →
  r0 + s ≤ N → c0 + s ≤ N →
  ∃ image',
    assign_block image r0 (r0 + s) c0 (c0 + s) tile = Ok image'
    ∧ shaped N N 3 image'
    ∧ ∀ R C, R < N → C < N →
        pixel_at image' R C
        = if decide (r0 ≤ R < r0 + s ∧ c0 ≤ C < c0 + s)
          then pixel_at tile (R - r0) (C - c0)
          else pixel_at image R C.
Proof.
  intros Himage Htile Hr Hc. unfold assign_block.
  rewrite (square_width N 3 image Himage).
  pose proof Himage as [Hlen Hrows]. rewrite Hlen.
  rewrite !Nat.min_l by lia.
  replace (r0 + s - r0) with s by lia. replace (c0 + s - c0) with s by lia.
  assert (Hshape : has_shape s s (channels image) tile = true).
  { apply has_shape_shaped. destruct (decide (s = 0)) as [->|Hs].
    - destruct Htile as [Ht _]. apply nil_length_inv in Ht as ->.
      split; [done | constructor].
    - by rewrite (square_channels N 3 image Himage) by lia. }
  rewrite Hshape. eexists. split; [done|]. split.
  - split; [by rewrite length_imap|].
    apply Forall_lookup. intros R row'. rewrite list_lookup_imap.
    destruct (image !! R) as [row|] eqn:Hrow; simpl; [|done]. intros [= <-].
    destruct (proj1 (Forall_lookup _ _) Hrows R row Hrow) as [Hw Hpx].
    case_bool_decide as HR; [|done].
    destruct (shaped_row s s 3 tile (R - r0) Htile) as (trow & Htrow & _ & Htpx);
      [lia|].
    rewrite (list_lookup_total_correct _ _ _ Htrow).
    split; [by rewrite length_inserts | by apply Forall_inserts].
  - intros R C HR HC. unfold pixel_at. rewrite list_lookup_imap.
    destruct (shaped_row N N 3 image R Himage HR) as (row & Hrow & Hw & _).
    rewrite Hrow. simpl.
    case_bool_decide as HinR.
    + destruct (shaped_row s s 3 tile (R - r0) Htile) as (trow & Htrow & Htw & _);
        [lia|].
      rewrite (list_lookup_total_correct _ _ _ Htrow), Htrow. simpl.
      destruct (decide (c0 ≤ C < c0 + s)) as [HinC|HoutC].
      * rewrite decide_True by done.
        apply list_lookup_inserts; lia.
      * rewrite decide_False by tauto.
        destruct (decide (C < c0)).
        -- by apply list_lookup_inserts_lt.
        -- apply list_lookup_inserts_ge. lia.
    + by rewrite decide_False by tauto.
Qed.

(** One turn of the loop: the frame is copied to a new array, the text is
    drawn on the copy, and the copy is written to the tile. *)
Lemma canvas_loop_step n size idx bbox rest (image pixels : array3) h :
  h !! bbox = Some pixels → n ≠ 0 →
  canvas_loop text_px n size idx (bbox :: rest) image h
  = let tile := write_text text_px pixels (PyInt.str (Z.of_nat idx)) in
    let h' := h ++ [tile] in
    match assign_block image (idx / n * size) ((idx / n + 1) * size)
                       (idx mod n * size) ((idx mod n + 1) * size) tile with
    | Raise e => (Raise e, h')
    | Ok image' =>
        if (idx =? n ^ 2 - 1)%nat then (Ok image', h')
        else canvas_loop text_px n size (S idx) rest image' h'
    end.
Proof.
  intros Hbbox Hn. simpl. rewrite Hbbox.
  destruct (Nat.eqb_spec n 0) as [|_]; [done|].
  replace (alter _ (length h) (h ++ [pixels]))
    with (h ++ [write_text text_px pixels (PyInt.str (Z.of_nat idx))]).
  - by rewrite list_lookup_middle.
  - rewrite <- (Nat.add_0_r (length h)) at 1. by rewrite alter_app_r.
Qed.

(** A pixel of the canvas lies in the tile of frame [idx] exactly when
    its tile number, counted row-major, is [idx]. *)
Lemma in_tile_iff n size idx R C :
  R < n * size → C < n * size →
  (idx / n * size ≤ R < idx / n * size + size
   ∧ idx mod n * size ≤ C < idx mod n * size + size)
  ↔ R / size * n + C / size = idx.
Proof.
  intros HR HC.
  assert (Hs : 0 < size) by (destruct size; lia).
  assert (HCn : C / size < n) by (apply Nat.Div0.div_lt_upper_bound; lia).
  split.
  - intros [HinR HinC].
    rewrite (proj1 (div_block R size (idx / n) Hs)) by lia.
    rewrite (proj1 (div_block C size (idx mod n) Hs)) by lia.
    pose proof (Nat.div_mod_eq idx n). lia.
  - intros <-. destruct (tile_div (R / size) (C / size) n HCn) as [-> ->].
    pose proof (proj2 (div_block R size (R / size) Hs) eq_refl).
    pose proof (proj2 (div_block C size (C / size) Hs) eq_refl).
    lia.
Qed.

Lemma canvas_loop_spec n size :
  0 < n →
  ∀ frames idx (image : array3) h,
    shaped (n * size) (n * size) 3 image →
    Forall (fun l => ∃ img, h !! l = Some img ∧ shaped size size 3 img) frames →
    idx < n * n →
    ∃ image' extra,
      canvas_loop text_px n size idx frames image h = (Ok image', h ++ extra)
      ∧ shaped (n * size) (n * size) 3 image'
      ∧ ∀ R C, R < n * size → C < n * size →
          pixel_at image' R C
          = match (if decide (idx ≤ R / size * n + C / size)
                   then frames !! (R / size * n + C / size - idx)
                   else None) with
            | Some l =>
                img ← h !! l;
                pixel_at (write_text text_px img
                            (PyInt.str (Z.of_nat (R / size * n + C / size))))
                         (R mod size) (C mod size)
            | None => pixel_at image R C
            end.
Proof.
  intros Hn frames. induction frames as [|bbox rest IH];
    intros idx image h Himage Hvalid Hidx.
  { exists image, []. rewrite app_nil_r. split; [done|]. split; [done|].
    intros R C _ _. by case_decide. }
  apply Forall_cons in Hvalid as [(pixels & Hbbox & Hpixels) Hrest].
  rewrite (canvas_loop_step n size idx bbox rest image pixels h Hbbox)
    by lia.
  cbv zeta. set (tile := write_text text_px pixels (PyInt.str (Z.of_nat idx))).
  destruct (idx_div_lt idx n Hidx) as [Hi Hj].
  destruct (assign_block_square (n * size) size image tile
              (idx / n * size) (idx mod n * size))
    as (image1 & Hassign & Himage1 & Hpx1);
    [done | by apply shaped_write_text | nia | nia |].
  replace ((idx / n + 1) * size) with (idx / n * size + size) by lia.
  replace ((idx mod n + 1) * size) with (idx mod n * size + size) by lia.
  rewrite Hassign.
  assert (Hpx1' : ∀ R C, R < n * size → C < n * size →
            pixel_at image1 R C
            = if decide (R / size * n + C / size = idx)
              then pixel_at tile (R mod size) (C mod size)
              else pixel_at image R C).
  { intros R C HR HC. rewrite (Hpx1 R C HR HC).
    pose proof (in_tile_iff n size idx R C HR HC) as Hiff.
    destruct (decide (R / size * n + C / size = idx)) as [Ht|Ht].
    - rewrite decide_True by (by apply Hiff).
      assert (Hs : 0 < size) by (destruct size; lia).
      assert (HCn : C / size < n) by (apply Nat.Div0.div_lt_upper_bound; lia).
      destruct (tile_div (R / size) (C / size) n HCn) as [Hq Hr].
      rewrite Ht in Hq, Hr. rewrite Hq, Hr.
      by rewrite !sub_block.
    - rewrite decide_False; [done|]. intros Hin. by apply Ht, Hiff. }
  destruct (Nat.eqb_spec idx (n ^ 2 - 1)) as [Hlast|Hmore].
  - rewrite Nat.pow_2_r in Hlast.
    exists image1, [tile]. split; [done|]. split; [done|].
    intros R C HR HC. rewrite (Hpx1' R C HR HC).
    pose proof (tile_lt R C size n HR HC) as Ht.
    destruct (decide (R / size * n + C / size = idx)) as [->|Hne].
    + rewrite decide_True by lia. rewrite Nat.sub_diag. simpl.
      by rewrite Hbbox.
    + by rewrite decide_False by lia.
  - rewrite Nat.pow_2_r in Hmore.
    destruct (IH (S idx) image1 (h ++ [tile])) as (image' & extra & Hloop & Himage' & Hpx);
      [done | | lia |].
    { eapply Forall_impl; [exact Hrest|]. intros l (img & Hl & Himg).
      exists img. split; [by apply lookup_app_l_Some | done]. }
    exists image', (tile :: extra). rewrite Hloop. split.
    { by rewrite <- app_assoc. }
    split; [done|]. intros R C HR HC. rewrite (Hpx R C HR HC).
    set (t := R / size * n + C / size).
    destruct (decide (S idx ≤ t)) as [Hgt|Hle].
    + rewrite decide_True by lia.
      replace (t - idx) with (S (t - S idx)) by lia. simpl.
      destruct (rest !! (t - S idx)) as [l|] eqn:Hl.
      * destruct (proj1 (Forall_lookup _ _) Hrest _ _ Hl) as (img & Himg & _).
        by rewrite (lookup_app_l_Some _ _ _ _ Himg), Himg.
      * rewrite (Hpx1' R C HR HC). fold t. by rewrite decide_False by lia.
    + rewrite (Hpx1' R C HR HC). fold t.
      destruct (decide (t = idx)) as [->|Hne].
      * rewrite decide_True by lia. rewrite Nat.sub_diag. simpl.
        by rewrite Hbbox.
      * by rewrite decide_False by lia.
Qed.

(** Frames after the first [n * n - idx] are never reached. *)
Lemma canvas_loop_take n size :
  ∀ frames idx (image : array3) h,
    idx < n * n →
    canvas_loop text_px n size idx frames image h
    = canvas_loop text_px n size idx (take (n * n - idx) frames) image h.
Proof.
  intros frames. induction frames as [|bbox rest IH]; intros idx image h Hidx.
  { by rewrite take_nil. }
  replace (n * n - idx) with (S (n * n - S idx)) by lia.
  rewrite firstn_cons. cbn [canvas_loop].
  destruct (h !! bbox) as [pixels|]; [|done].
  destruct (n =? 0)%nat; [done|].
  destruct (alter _ _ _ !! length h) as [tile|]; [|done].
  destruct (assign_block _ _ _ _ _ _) as [image1|e]; [|done].
  destruct (Nat.eqb_spec idx (n ^ 2 - 1)) as [Hlast|Hmore]; [done|].
  rewrite Nat.pow_2_r in Hmore. apply IH. lia.
Qed.

(** The heap only grows: every array that was there is still there,
    with its content. *)
Lemma canvas_loop_heap n size :
  ∀ frames idx (image : array3) h,
    ∃ extra, (canvas_loop text_px n size idx frames image h).2 = h ++ extra.
Proof.
  intros frames. induction frames as [|bbox rest IH]; intros idx image h;
    cbn [canvas_loop].
  { exists []. by rewrite app_nil_r. }
  destruct (h !! bbox) as [pixels|]; [|exists []; by rewrite app_nil_r].
  replace (alter (fun a => write_text text_px a (PyInt.str (Z.of_nat idx)))
                 (length h) (h ++ [pixels]))
    with (h ++ [write_text text_px pixels (PyInt.str (Z.of_nat idx))]).
  2:{ rewrite <- (Nat.add_0_r (length h)) at 1. by rewrite alter_app_r. }
  set (h' := h ++ _).
  destruct (n =? 0)%nat; [by eexists|].
  destruct (h' !! length h) as [tile|]; [|by eexists].
  destruct (assign_block _ _ _ _ _ _) as [image1|e]; [|by eexists].
  destruct (idx =? n ^ 2 - 1)%nat; [by eexists|].
  destruct (IH (S idx) image1 h') as [extra ->].
  unfold h'. rewrite <- app_assoc. by eexists.
Qed.

(** C6. For [n >= 1] and frames that all are [size] by [size] with three
    channels, [canvas] returns an array of shape
    [(n*size, n*size, 3)] in which the tile in row [idx // n], column
    [idx % n] holds frame [idx] (its copy with the index drawn on it), for
    every [idx] below [n*n] and below the number of frames; frames from
    [n*n] on are ignored, and every tile no frame was placed on keeps the
    zero of the fresh canvas. *)
Theorem canvas_mosaic (frames : list nat) (n size : nat) (h : list array3) :
  0 < n →
  Forall (fun bbox => ∃ pixels, h !! bbox = Some pixels
                                ∧ has_shape size size 3 pixels = true) frames →
  ∃ image extra,
    canvas px0 text_px frames n size h = (Ok image, h ++ extra)
    ∧ has_shape (n * size) (n * size) 3 image = true
    ∧ (∀ idx bbox pixels r c,
         idx < n * n → frames !! idx = Some bbox → h !! bbox = Some pixels →
         r < size → c < size →
         pixel_at image (idx / n * size + r) (idx mod n * size + c)
         = pixel_at (write_text text_px pixels (PyInt.str (Z.of_nat idx))) r c)
    ∧ (∀ R C,
         R < n * size → C < n * size →
         length frames ≤ R / size * n + C / size →
         pixel_at image R C = Some [px0; px0; px0])
    ∧ canvas px0 text_px frames n size h
      = canvas px0 text_px (take (n * n) frames) n size h.
Proof.
  intros Hn Hframes. unfold canvas. rewrite (Nat.mul_comm size n).
  destruct (canvas_loop_spec n size Hn frames 0
              (replicate (n * size) (replicate (n * size) (replicate 3 px0))) h)
    as (image & extra & Hloop & Himage & Hpx).
  { apply shaped_replicate. }
  { eapply Forall_impl; [exact Hframes|]. intros bbox (pixels & Hb & Hs).
    exists pixels. split; [done | by apply has_shape_shaped]. }
  { nia. }
  exists image, extra. split; [done|].
  split; [by apply has_shape_shaped|]. split; [|split].
  - intros idx bbox pixels r c Hidx Hbbox Hpixels Hr Hc.
    destruct (idx_div_lt idx n Hidx) as [Hi Hj].
    assert (HR : idx / n * size + r < n * size) by nia.
    assert (HC : idx mod n * size + c < n * size) by nia.
    rewrite (Hpx _ _ HR HC).
    assert (Ht : (idx / n * size + r) / size * n + (idx mod n * size + c) / size
                 = idx).
    { apply (in_tile_iff n size idx _ _ HR HC). lia. }
    rewrite Ht, decide_True, Nat.sub_0_r, Hbbox by lia. simpl.
    rewrite Hpixels. simpl.
    assert (Hs : 0 < size) by lia.
    rewrite <- (sub_block (idx / n * size + r) size).
    rewrite <- (sub_block (idx mod n * size + c) size).
    rewrite (proj1 (div_block (idx / n * size + r) size (idx / n) Hs)) by lia.
    rewrite (proj1 (div_block (idx mod n * size + c) size (idx mod n) Hs)) by lia.
    f_equal; lia.
  - intros R C HR HC Hfree. rewrite (Hpx R C HR HC).
    rewrite decide_True, Nat.sub_0_r by lia.
    rewrite (proj2 (lookup_ge_None _ _) Hfree).
    unfold pixel_at. rewrite lookup_replicate_2 by done. simpl.
    by rewrite lookup_replicate_2.
  - rewrite (canvas_loop_take n size frames 0) by nia.
    by rewrite Nat.sub_0_r.
Qed.

(** C10. [canvas] changes no array that existed before the call, whatever
    the outcome: the heap it leaves is the one it was given followed by
    the arrays it allocated, so every input frame still has the content
    it had. The text goes onto copies only. *)
Theorem canvas_keeps_frames (frames : list nat) (n size : nat) (h : list array3) :
  let h' := (canvas px0 text_px frames n size h).2 in
  (∃ extra, h' = h ++ extra)
  ∧ ∀ bbox pixels, h !! bbox = Some pixels → h' !! bbox = Some pixels.
Proof.
  intros h'. unfold h', canvas.
  destruct (canvas_loop_heap n size frames 0
              (replicate (size * n) (replicate (size * n) (replicate 3 px0))) h)
    as [extra Hextra].
  rewrite Hextra. split; [by exists extra|].
  intros bbox pixels Hb. by apply lookup_app_l_Some.
Qed.
End canvas_facts.

(** Concrete runs of the mosaic, on one-pixel frames of integer
    intensities, with a drawing routine that adds 100 to every value. *)

Lemma canvas_mosaic_witness :
  let draw := fun (img : list (list (list Z))) (_ : string) (r c ch : nat) =>
                match value_at img r c ch with
                | Some v => (v + 100)%Z
                | None => 0%Z
                end in
  let h := [ [[[1; 2; 3]]]; [[[4; 5; 6]]]; [[[7; 8; 9]]] ]%Z in
  0 < 2
  ∧ canvas 0%Z draw [0; 1; 2] 2 1 h
    = (Ok [ [[101; 102; 103]; [104; 105; 106]];
            [[107; 108; 109]; [0; 0; 0]] ]%Z,
       h ++ [ [[[101; 102; 103]]]; [[[104; 105; 106]]]; [[[107; 108; 109]]] ]%Z)
  ∧ ∃ image extra,
      canvas 0%Z draw [0; 1; 2] 2 1 h = (Ok image, h ++ extra)
      ∧ has_shape (2 * 1) (2 * 1) 3 image = true.
Proof.
  intros draw h. split; [lia|]. split; [reflexivity|].
  destruct (canvas_mosaic 0%Z draw [0; 1; 2] 2 1 h ltac:(lia))
    as (image & extra & Hrun & Hshape & _).
  { repeat (constructor; [eexists; split; reflexivity|]). constructor. }
  by exists image, extra.
Defined.

(** A grid of side 0 has no tile to put a frame on: the division fails,
    after the copy was made and drawn on. *)
Example canvas_empty_grid :
  canvas 0%Z (fun _ _ _ _ _ => 9%Z) [0] 0 1 [ [[[1; 2; 3]]] ]%Z
  = (Raise ZeroDivisionError, [ [[[1; 2; 3]]]; [[[9; 9; 9]]] ]%Z).
Proof. reflexivity. Qed.

(** A frame larger than the tile does not fit it. *)
Example canvas_large_frame :
  canvas 0%Z (fun _ _ _ _ _ => 9%Z) [0] 1 1 [ [[[1; 2; 3]; [4; 5; 6]]] ]%Z
  = (Raise ValueError,
     [ [[[1; 2; 3]; [4; 5; 6]]]; [[[9; 9; 9]; [9; 9; 9]]] ]%Z).
Proof. reflexivity. Qed.

Lemma canvas_keeps_frames_witness :
  let draw := fun (img : list (list (list Z))) (_ : string) (r c ch : nat) =>
                match value_at img r c ch with
                | Some v => (v + 100)%Z
                | None => 0%Z
                end in
  let h := [ [[[1; 2; 3]]]; [[[4; 5; 6]]] ]%Z in
  h !! 1 = Some [[[4; 5; 6]]]%Z
  ∧ (canvas 0%Z draw [0; 1; 1; 0; 1] 2 1 h).2 !! 1 = Some [[[4; 5; 6]]]%Z.
Proof.
  intros draw h. split; [reflexivity|].
  exact (proj2 (canvas_keeps_frames 0%Z draw [0; 1; 1; 0; 1] 2 1 h)
               1 [[[4; 5; 6]]]%Z eq_refl).
Defined.

(** * Further properties of the page *)

(** ** Dictionaries: keys under assignment *)

Module PyDictKeys.
Section dict.
Context {K V : Type} `{EqDecision K}.
Implicit Types (k : K) (v : V) (d : list (K * V)).

Lemma get_elem_of k v d : PyDict.get k d = Some v → (k, v) ∈ d.
Proof.
  induction d as [|[k' v'] d IH]; simpl; [done|].
  destruct (decide (k = k')) as [->|Hne].
  - intros [= ->]. left.
  - intros Hd. right. by apply IH.
Qed.

Lemma elem_of_set k v d x : x ∈ PyDict.set k v d → x = (k, v) ∨ x ∈ d.
Proof.
  induction d as [|[k' v'] d IH]; simpl.
  - intros ->%list_elem_of_singleton. by left.
  - destruct (decide (k = k')) as [->|Hne].
    + intros [->|Hin]%elem_of_cons; [by left | right; by right].
    + intros [->|Hin]%elem_of_cons; [right; left|].
      destruct (IH Hin) as [->|Hd]; [by left | right; by right].
Qed.

Lemma keys_set k v d :
  PyDict.keys (PyDict.set k v d)
  = if PyDict.mem k d then PyDict.keys d else PyDict.keys d ++ [k].
Proof.
  unfold PyDict.mem. destruct (PyDict.get k d) as [v'|] eqn:Hget.
  - apply PyDictFacts.keys_set_present. by rewrite Hget.
  - rewrite PyDictFacts.set_fresh by (by apply PyDictFacts.get_None).
    unfold PyDict.keys. by rewrite fmap_app.
Qed.

Lemma NoDup_keys_set k v d :
  NoDup (PyDict.keys d) → NoDup (PyDict.keys (PyDict.set k v d)).
Proof.
  intros Hnd. rewrite keys_set. unfold PyDict.mem.
  destruct (PyDict.get k d) as [v'|] eqn:Hget; [done|].
  apply NoDup_app. split; [done|]. split; [|apply NoDup_singleton].
  intros x Hx ->%list_elem_of_singleton.
  by apply (proj1 (PyDictFacts.get_None k d) Hget).
Qed.
End dict.
End PyDictKeys.

(** ** One run of the sequence part of [labeling] *)

Section store_runs.
Implicit Types (seqs : sequences) (l : list seq_record) (tid : Z).

Lemma adding_sequences_get form seqs tid :
  add_pressed form = true →
  PyDict.get tid (adding_sequences form seqs tid)
  = Some (default [] (PyDict.get tid seqs)
          ++ [SeqRecord (first_frame_input form) (last_frame_input form) tid
                        (visible_number_input form)]).
Proof.
  intros Hpressed. unfold adding_sequences, PyDict.mem. rewrite Hpressed.
  destruct (PyDict.get tid seqs) as [l|] eqn:Hget; simpl.
  - rewrite Hget. apply PyDictFacts.get_set_eq.
  - rewrite PyDictFacts.get_set_eq. apply PyDictFacts.get_set_eq.
Qed.

(** X1. Pressing the add button appends the record
    [first_frame, last_frame, track_id, visible_number] at the end of the
    track's list, after the records already there (an absent track gets the
    one-record list, as the last key of the store); every other track keeps
    its list. Without the button the store is returned as it is. *)
Theorem adding_sequences_appends form seqs tid :
  let r := SeqRecord (first_frame_input form) (last_frame_input form) tid
                     (visible_number_input form) in
  (add_pressed form = true →
     PyDict.get tid (adding_sequences form seqs tid)
     = Some (default [] (PyDict.get tid seqs) ++ [r])
     ∧ (∀ tid', tid' ≠ tid →
          PyDict.get tid' (adding_sequences form seqs tid) = PyDict.get tid' seqs)
     ∧ PyDict.keys (adding_sequences form seqs tid)
       = if PyDict.mem tid seqs then PyDict.keys seqs
         else PyDict.keys seqs ++ [tid])
  ∧ (add_pressed form = false → adding_sequences form seqs tid = seqs).
Proof.
  intros r. split.
  - intros Hpressed. split; [by apply adding_sequences_get|].
    unfold adding_sequences, PyDict.mem. rewrite Hpressed.
    destruct (PyDict.get tid seqs) as [l|] eqn:Hget; simpl.
    + rewrite Hget. split.
      * intros tid' Hne. apply PyDictFacts.get_set_ne. congruence.
      * apply PyDictFacts.keys_set_present. by rewrite Hget.
    + rewrite PyDictFacts.get_set_eq. split.
      * intros tid' Hne. rewrite !PyDictFacts.get_set_ne by congruence. done.
      * rewrite PyDictFacts.keys_set_present
          by (rewrite PyDictFacts.get_set_eq; by eexists).
        rewrite PyDictKeys.keys_set. unfold PyDict.mem. by rewrite Hget.
  - intros Hoff. unfold adding_sequences. by rewrite Hoff.
Qed.

Lemma adding_sequences_appends_witness :
  let form := AddForm (-1) 25 30 true in
  add_pressed form = true
  ∧ PyDict.get 7%Z (adding_sequences form [(5%Z, [SeqRecord 10 20 5 3])] 7)
    = Some [SeqRecord 25 30 7 (-1)]
  ∧ PyDict.keys (adding_sequences form [(5%Z, [SeqRecord 10 20 5 3])] 7)
    = [5%Z; 7%Z].
Proof.
  intros form. split; [reflexivity|].
  destruct (proj1 (adding_sequences_appends form [(5%Z, [SeqRecord 10 20 5 3])] 7%Z)
              eq_refl) as (Hget & _ & Hkeys).
  split; [exact Hget | exact Hkeys].
Defined.

Lemma adding_sequences_ok form seqs tid :
  keys_unique seqs → ids_consistent seqs →
  keys_unique (adding_sequences form seqs tid)
  ∧ ids_consistent (adding_sequences form seqs tid).
Proof.
  intros Hk Hc. unfold adding_sequences.
  destruct (add_pressed form); [|done].
  set (seqs1 := if PyDict.mem tid seqs then seqs else PyDict.set tid [] seqs).
  assert (Hk1 : keys_unique seqs1).
  { unfold seqs1. destruct (PyDict.mem tid seqs); [done|].
    by apply PyDictKeys.NoDup_keys_set. }
  assert (Hc1 : ids_consistent seqs1).
  { unfold seqs1. destruct (PyDict.mem tid seqs); [done|].
    intros k l r [Heq|Hin]%PyDictKeys.elem_of_set Hr.
    - injection Heq as -> ->. by apply elem_of_nil in Hr.
    - by apply (Hc k l r). }
  destruct (PyDict.get tid seqs1) as [l|] eqn:Hget; [|done].
  split; [by apply PyDictKeys.NoDup_keys_set|].
  intros k l' r [Heq|Hin]%PyDictKeys.elem_of_set Hr.
  - injection Heq as -> ->. apply elem_of_app in Hr as [Hr | ->%list_elem_of_singleton]; [|done].
    apply (Hc1 tid l r); [|done]. by apply PyDictKeys.get_elem_of.
  - by apply (Hc1 k l' r).
Qed.

Lemma without_indices_subset (ids : list Z) l r :
  r ∈ without_indices ids l → r ∈ l.
Proof.
  unfold without_indices. intros ([i r'] & -> & Hin)%list_elem_of_fmap.
  apply list_elem_of_filter in Hin as [_ Hin].
  apply PyListFacts.enumerate_lookup in Hin. simpl.
  by eapply list_elem_of_lookup_2.
Qed.

Lemma remove_sequences_ok (ids : list Z) seqs tid :
  keys_unique seqs → ids_consistent seqs →
  keys_unique (remove_sequences ids seqs tid)
  ∧ ids_consistent (remove_sequences ids seqs tid).
Proof.
  intros Hk Hc. destruct (PyDict.get tid seqs) as [l|] eqn:Hget.
  - rewrite (remove_sequences_present ids seqs tid l Hget). split.
    + by apply PyDictKeys.NoDup_keys_set.
    + intros k l' r [Heq|Hin]%PyDictKeys.elem_of_set Hr.
      * injection Heq as -> ->. apply (Hc tid l r); [by apply PyDictKeys.get_elem_of|].
        by eapply without_indices_subset.
      * by apply (Hc k l' r).
  - by rewrite remove_sequences_absent.
Qed.

(** X2. One run of [labeling] keeps the store well formed: if every track
    id is bound once and every record carries the id of the track it is
    filed under, the same holds after the add form and the remove buttons
    of the run, whatever was entered and pressed. *)
Theorem labeling_store_ok form (pressed : nat → bool) seqs tid :
  keys_unique seqs → ids_consistent seqs →
  keys_unique (labeling_store form pressed seqs tid)
  ∧ ids_consistent (labeling_store form pressed seqs tid).
Proof.
  intros Hk Hc. unfold labeling_store.
  destruct (adding_sequences_ok form seqs tid Hk Hc) as [Hk1 Hc1].
  by apply remove_sequences_ok.
Qed.

Lemma labeling_store_ok_witness :
  let seqs : sequences := [(5%Z, [SeqRecord 10 20 5 3]); (8%Z, [])] in
  let after := labeling_store (AddForm 2 40 50 true) (fun i => Nat.eqb i 0) seqs 5 in
  keys_unique seqs ∧ ids_consistent seqs
  ∧ after = [(5%Z, [SeqRecord 40 50 5 2]); (8%Z, [])]
  ∧ keys_unique after ∧ ids_consistent after.
Proof.
  intros seqs after.
  assert (Hk : keys_unique seqs).
  { apply (bool_decide_unpack _). vm_compute. reflexivity. }
  assert (Hc : ids_consistent seqs).
  { intros k l r Hin Hr.
    apply elem_of_cons in Hin as [Heq|Hin].
    - injection Heq as -> ->. apply list_elem_of_singleton in Hr as ->. reflexivity.
    - apply list_elem_of_singleton in Hin. injection Hin as -> ->.
      by apply elem_of_nil in Hr. }
  split; [exact Hk|]. split; [exact Hc|]. split; [reflexivity|].
  exact (labeling_store_ok (AddForm 2 40 50 true) (fun i => Nat.eqb i 0) seqs 5%Z Hk Hc).
Defined.
End store_runs.

Section store_sessions.
Implicit Types (seqs : sequences) (l : list seq_record) (tid : Z)
  (fs : filesystem) (file : string).

Lemma adding_sequences_keys form seqs tid :
  keys_unique seqs → keys_unique (adding_sequences form seqs tid).
Proof.
  intros Hk. unfold adding_sequences. destruct (add_pressed form); [|done].
  set (seqs1 := if PyDict.mem tid seqs then seqs else PyDict.set tid [] seqs).
  assert (Hk1 : keys_unique seqs1).
  { unfold seqs1. destruct (PyDict.mem tid seqs); [done|].
    by apply PyDictKeys.NoDup_keys_set. }
  destruct (PyDict.get tid seqs1); [|done].
  by apply PyDictKeys.NoDup_keys_set.
Qed.

Lemma remove_sequences_keys (ids : list Z) seqs tid :
  keys_unique seqs → keys_unique (remove_sequences ids seqs tid).
Proof.
  intros Hk. destruct (PyDict.get tid seqs) as [l|] eqn:Hget.
  - rewrite (remove_sequences_present ids seqs tid l Hget).
    by apply PyDictKeys.NoDup_keys_set.
  - by rewrite remove_sequences_absent.
Qed.

Lemma load_saved (d : list (Z * pyval)) file fs :
  fs !! file = Some (json_dump d) → NoDup (PyDict.keys d) →
  load_sequences file fs = Ok d.
Proof.
  intros Hfile Hnd. rewrite <- (insert_id fs file _ Hfile).
  by apply load_json_dump.
Qed.

(** X3. A run of [labeling] on a file the page wrote itself reads the
    stored annotations back, and what it saves after the add form and the
    remove buttons is read back by the next run as exactly the store of
    this run; no other file is touched. *)
Theorem labeling_session_persists form (pressed : nat → bool) seqs tid file fs :
  keys_unique seqs →
  fs !! file = Some (json_dump (py_of_sequences seqs)) →
  let seqs' := labeling_store form pressed seqs tid in
  let fs' := save_sequences seqs' file fs in
  load_sequences file fs = Ok (py_of_sequences seqs)
  ∧ load_sequences file fs' = Ok (py_of_sequences seqs')
  ∧ sequences_of_py (py_of_sequences seqs') = Some seqs'
  ∧ ∀ other, other ≠ file → fs' !! other = fs !! other.
Proof.
  intros Hk Hfile seqs' fs'. split; [|split; [|split]].
  - apply load_saved; [done|]. by rewrite keys_py_of_sequences.
  - unfold fs', save_sequences. apply load_json_dump.
    rewrite keys_py_of_sequences. unfold seqs', labeling_store.
    by apply remove_sequences_keys, adding_sequences_keys.
  - apply sequences_of_py_of_sequences.
  - intros other Hne. unfold fs', save_sequences. by apply lookup_insert_ne.
Qed.

Lemma labeling_session_persists_witness :
  let seqs : sequences := [(5%Z, [SeqRecord 10 20 5 3])] in
  let fs : filesystem :=
    {[ "out/a.json" := json_dump (py_of_sequences seqs);
       "out/b.json" := OtherText "{" ]} in
  let fs' :=
    save_sequences (labeling_store (AddForm 0 1 2 true) (fun _ => false) seqs 6)
                   "out/a.json" fs in
  keys_unique seqs
  ∧ fs !! "out/a.json" = Some (json_dump (py_of_sequences seqs))
  ∧ load_sequences "out/a.json" fs'
    = Ok [(5%Z, PList [PList [PInt 10; PInt 20; PInt 5; PInt 3]]);
          (6%Z, PList [PList [PInt 1; PInt 2; PInt 6; PInt 0]])]
  ∧ fs' !! "out/b.json" = Some (OtherText "{").
Proof.
  intros seqs fs fs'.
  assert (Hk : keys_unique seqs) by apply NoDup_singleton.
  destruct (labeling_session_persists (AddForm 0 1 2 true) (fun _ => false)
              seqs 6%Z "out/a.json" fs Hk eq_refl) as (_ & Hload & _ & Hother).
  split; [exact Hk|]. split; [reflexivity|]. split; [exact Hload|].
  etrans; [apply (Hother "out/b.json"); discriminate | reflexivity].
Defined.

Lemma int_keys_NoDup members acc store :
  NoDup (PyDict.keys acc) → int_keys members acc = Ok store →
  NoDup (PyDict.keys store).
Proof.
  revert acc. induction members as [|[s v] members IH]; intros acc Hnd; simpl.
  - by intros [= <-].
  - destruct (PyInt.int s) as [k|]; [|done].
    apply IH. by apply PyDictKeys.NoDup_keys_set.
Qed.

(** X4. Whatever the file holds, a store that [load_sequences] returns
    binds every track id once, also when two keys of the document read as
    the same integer. *)
Theorem load_sequences_keys_unique file fs store :
  load_sequences file fs = Ok store → NoDup (PyDict.keys store).
Proof.
  unfold load_sequences. destruct (fs !! file) as [content|].
  - destruct (json_load content) as [doc|e]; simpl; [|done].
    destruct (items doc) as [members|e]; simpl; [|done].
    apply int_keys_NoDup. constructor.
  - intros [= <-]. constructor.
Qed.

Lemma load_sequences_keys_unique_witness :
  let fs : filesystem :=
    {[ "a.json" := JsonText (PDict [("5", PList []); ("05", PInt 1);
                                    ("6", PNone); (" 5 ", PStr "x")]) ]} in
  load_sequences "a.json" fs = Ok [(5%Z, PStr "x"); (6%Z, PNone)]
  ∧ NoDup (PyDict.keys [(5%Z, PStr "x"); (6%Z, PNone)]).
Proof.
  intros fs. split; [reflexivity|].
  exact (load_sequences_keys_unique "a.json" fs _ eq_refl).
Defined.
End store_sessions.

(** ** The rows shown and the indices handed to the removal *)

Section shown_rows_facts.
Implicit Types (seqs : sequences) (l : list seq_record) (tid : Z).

Lemma enumerate_fst {A} (l : list A) : (PyList.enumerate l).*1 = seq 0 (length l).
Proof.
  apply list_eq. intros i. unfold PyList.enumerate.
  rewrite list_lookup_fmap, list_lookup_imap.
  destruct (l !! i) as [x|] eqn:Hi; simpl.
  - by rewrite lookup_seq_lt by (by eapply lookup_lt_Some).
  - symmetry. apply lookup_seq_ge. by apply lookup_ge_None.
Qed.

Lemma fmap_index {A} (rows : list (nat * A)) :
  (fun row : nat * A => Z.of_nat row.1) <$> rows = Z.of_nat <$> rows.*1.
Proof. induction rows as [|row rows IH]; [done|]. rewrite !fmap_cons. by f_equal. Qed.

(** For every [lastk], the rows are the tail of the sorted enumeration. *)
Lemma shown_rows_tail l (lastk : Z) :
  ∃ skipped,
    skipped ++ shown_rows l lastk ≡ₚ PyList.enumerate l
    ∧ StronglySorted row_before (skipped ++ shown_rows l lastk).
Proof.
  unfold shown_rows.
  destruct (PyListFacts.slice_from_suffix (- lastk)
              (PyList.sorted PyList.lt (fun x : nat * seq_record => seq_fields x.2)
                             (PyList.enumerate l))) as [skipped Hfull].
  exists skipped. rewrite <- Hfull.
  split; [apply PyListFacts.sorted_perm | apply shown_rows_sorted].
Qed.

Lemma shown_rows_lookup l (lastk : Z) i r :
  (i, r) ∈ shown_rows l lastk → l !! i = Some r.
Proof.
  destruct (shown_rows_tail l lastk) as (skipped & Hperm & _).
  intros Hin. apply PyListFacts.enumerate_lookup. rewrite <- Hperm.
  apply elem_of_app. by right.
Qed.

Lemma shown_rows_NoDup l (lastk : Z) : NoDup (shown_rows l lastk).*1.
Proof.
  destruct (shown_rows_tail l lastk) as (skipped & Hperm & _).
  assert (Hnd : NoDup (skipped ++ shown_rows l lastk).*1).
  { rewrite Hperm, enumerate_fst. apply NoDup_seq. }
  rewrite fmap_app in Hnd. by apply NoDup_app in Hnd as (_ & _ & ?).
Qed.

Lemma show_sequences_elem (pressed : nat → bool) seqs tid l (lastk : Z) z :
  PyDict.get tid seqs = Some l →
  z ∈ show_sequences pressed seqs tid lastk
  ↔ ∃ i r, z = Z.of_nat i ∧ (i, r) ∈ shown_rows l lastk ∧ pressed i = true.
Proof.
  intros Hget. unfold show_sequences. rewrite Hget, list_elem_of_fmap. split.
  - intros ([i r] & -> & [Hp Hin]%list_elem_of_filter). by exists i, r.
  - intros (i & r & -> & Hin & Hp). exists (i, r). split; [done|].
    by apply list_elem_of_filter.
Qed.

(** X5. The indices [show_sequences] returns for removal are pairwise
    different positions of the track's stored list, each of a row that was
    shown with its button pressed; handing them to the removal step
    shortens the list by exactly their number. *)
Theorem show_sequences_indices (pressed : nat → bool) seqs tid l (lastk : Z) :
  PyDict.get tid seqs = Some l →
  let out := show_sequences pressed seqs tid lastk in
  NoDup out
  ∧ (∀ z, z ∈ out ↔
       ∃ i r, z = Z.of_nat i ∧ (i, r) ∈ shown_rows l lastk ∧ pressed i = true)
  ∧ (∀ z, z ∈ out → (0 ≤ z < Z.of_nat (length l))%Z)
  ∧ ∃ l', PyDict.get tid (remove_sequences out seqs tid) = Some l'
          ∧ length l' + length out = length l.
Proof.
  intros Hget out.
  assert (Hnd : NoDup out).
  { unfold out, show_sequences. rewrite Hget, fmap_index.
    apply NoDup_fmap_2; [apply Nat2Z.inj'|].
    eapply sublist_NoDup; [apply (shown_rows_NoDup l lastk)|].
    apply fmap_sublist, sublist_filter. }
  assert (Hrange : ∀ z, z ∈ out → ∃ i r, z = Z.of_nat i ∧ l !! i = Some r).
  { intros z (i & r & -> & Hin & _)%(show_sequences_elem pressed seqs tid l lastk z Hget).
    exists i, r. split; [done|]. by eapply shown_rows_lookup. }
  split; [done|]. split; [intros z; by apply show_sequences_elem|]. split.
  - intros z (i & r & -> & Hi%lookup_lt_Some)%Hrange. lia.
  - rewrite (remove_sequences_present out seqs tid l Hget).
    eexists. split; [apply PyDictFacts.get_set_eq|].
    unfold without_indices. rewrite length_fmap.
    set (removed := list_to_set out : gset Z).
    set (gone := filter (fun row : nat * seq_record => Z.of_nat row.1 ∈ removed)
                        (PyList.enumerate l)).
    assert (Hgone : (fun row : nat * seq_record => Z.of_nat row.1) <$> gone ≡ₚ out).
    { apply NoDup_Permutation; [|done|].
      - rewrite fmap_index.
        apply NoDup_fmap_2; [apply Nat2Z.inj'|].
        eapply sublist_NoDup; [|apply fmap_sublist, sublist_filter].
        rewrite enumerate_fst. apply NoDup_seq.
      - intros z. rewrite list_elem_of_fmap. split.
        + intros ([i r] & -> & [Hin _]%list_elem_of_filter). simpl in Hin.
          unfold removed in Hin. by rewrite elem_of_list_to_set in Hin.
        + intros Hz. destruct (Hrange z Hz) as (i & r & -> & Hi).
          exists (i, r). split; [done|]. apply list_elem_of_filter. split.
          * simpl. unfold removed. by rewrite elem_of_list_to_set.
          * by apply PyListFacts.enumerate_lookup. }
    rewrite <- (PyListFacts.length_enumerate l).
    rewrite <- (Permutation_length (filter_app_complement
                  (fun row : nat * seq_record => Z.of_nat row.1 ∈ removed)
                  (PyList.enumerate l))).
    rewrite length_app, <- (Permutation_length Hgone), length_fmap.
    fold gone. by rewrite Nat.add_comm.
Qed.

Lemma show_sequences_indices_witness :
  let l := [SeqRecord 10 20 5 3; SeqRecord 25 30 5 (-1); SeqRecord 1 99 5 0] in
  let seqs : sequences := [(5%Z, l)] in
  let out := show_sequences (fun i => negb (Nat.eqb i 1)) seqs 5 2 in
  PyDict.get 5%Z seqs = Some l
  ∧ out = [0%Z]
  ∧ NoDup out
  ∧ ∃ l', PyDict.get 5%Z (remove_sequences out seqs 5) = Some l'
          ∧ length l' + length out = length l.
Proof.
  intros l seqs out.
  destruct (show_sequences_indices (fun i => negb (Nat.eqb i 1)) seqs 5%Z l 2%Z eq_refl)
    as (Hnd & _ & _ & Hlen).
  split; [reflexivity|]. split; [reflexivity|]. split; [exact Hnd | exact Hlen].
Defined.
End shown_rows_facts.

Section last_row.
Implicit Types (seqs : sequences) (l : list seq_record) (tid : Z).

Lemma record_lt_irrefl a : ¬ record_lt a a.
Proof. unfold record_lt. lia. Qed.

Lemma record_lt_asym a b : record_lt a b → ¬ record_lt b a.
Proof. unfold record_lt. lia. Qed.

Lemma record_lt_total a b : ¬ record_lt a b → ¬ record_lt b a → a = b.
Proof.
  destruct a as [a1 a2 a3 a4], b as [b1 b2 b3 b4]. unfold record_lt. simpl.
  intros Hab Hba.
  assert (a1 = b1) as -> by lia. assert (a2 = b2) as -> by lia.
  assert (a3 = b3) as -> by lia. assert (a4 = b4) as -> by lia. done.
Qed.

Lemma StronglySorted_snoc {A} (R : A → A → Prop) (init : list A) (x y : A) :
  StronglySorted R (init ++ [x]) → y ∈ init → R y x.
Proof.
  induction init as [|z init IH]; simpl; [by intros _ ?%elem_of_nil|].
  intros Hs. apply StronglySorted_inv in Hs as [Hs Hz].
  intros [->|Hy]%elem_of_cons; [|by apply IH].
  rewrite Forall_forall in Hz. apply Hz, elem_of_app. right. left.
Qed.

(** With [lastk >= 1] and a record stored, the last row shown comes after
    every other row of the enumeration. *)
Lemma shown_rows_last_dominates l (lastk : Z) :
  l ≠ [] → (1 ≤ lastk)%Z →
  ∃ x, last (shown_rows l lastk) = Some x
       ∧ x ∈ PyList.enumerate l
       ∧ ∀ y, y ∈ PyList.enumerate l → y = x ∨ row_before y x.
Proof.
  intros Hl Hk.
  destruct (shown_rows_tail l lastk) as (skipped & Hperm & Hsorted).
  assert (Hlen : length (shown_rows l lastk) ≠ 0).
  { unfold shown_rows. rewrite PyListFacts.length_slice_from by lia.
    rewrite (Permutation_length (PyListFacts.sorted_perm _ _ _)),
      PyListFacts.length_enumerate.
    destruct l; [done|]. simpl. lia. }
  destruct (last (shown_rows l lastk)) as [x|] eqn:Hlast.
  2:{ apply last_None in Hlast. by rewrite Hlast in Hlen. }
  exists x. split; [done|].
  apply last_Some in Hlast as [init Hinit]. rewrite Hinit in Hperm, Hsorted.
  rewrite app_assoc in Hperm, Hsorted. split.
  - rewrite <- Hperm. apply elem_of_app. right. left.
  - intros y Hy. rewrite <- Hperm in Hy.
    apply elem_of_app in Hy as [Hy|Hy%list_elem_of_singleton]; [|by left].
    right. by eapply StronglySorted_snoc.
Qed.

(** X6. With [lastk >= 1] and at least one record stored, the last row
    shown holds a greatest record of the track: no stored record is
    greater, and of equal greatest records it is the one stored last. *)
Theorem shown_rows_last_max l (lastk : Z) :
  l ≠ [] → (1 ≤ lastk)%Z →
  ∃ i r, last (shown_rows l lastk) = Some (i, r)
         ∧ l !! i = Some r
         ∧ (∀ r', r' ∈ l → ¬ record_lt r r')
         ∧ (∀ j, l !! j = Some r → j ≤ i).
Proof.
  intros Hl Hk.
  destruct (shown_rows_last_dominates l lastk Hl Hk) as ([i r] & Hlast & Hin & Hdom).
  exists i, r. split; [done|].
  split; [by apply PyListFacts.enumerate_lookup|]. split.
  - intros r' [j Hj]%list_elem_of_lookup_1.
    destruct (Hdom (j, r')) as [Heq|[Hlt|[Heq _]]];
      [by apply PyListFacts.enumerate_lookup| | |]; simpl in *.
    + injection Heq as -> ->. apply record_lt_irrefl.
    + by apply record_lt_asym.
    + rewrite Heq. apply record_lt_irrefl.
  - intros j Hj.
    destruct (Hdom (j, r)) as [Heq|[Hlt|[_ Hidx]]];
      [by apply PyListFacts.enumerate_lookup| | |]; simpl in *.
    + injection Heq as ->. done.
    + by apply record_lt_irrefl in Hlt.
    + lia.
Qed.

Lemma shown_rows_last_max_witness :
  let l := [SeqRecord 25 30 5 1; SeqRecord 10 20 5 3; SeqRecord 25 30 5 1] in
  l ≠ [] ∧ (1 ≤ 2)%Z
  ∧ last (shown_rows l 2) = Some (2, SeqRecord 25 30 5 1)
  ∧ ∃ i r, last (shown_rows l 2) = Some (i, r)
           ∧ (∀ r', r' ∈ l → ¬ record_lt r r').
Proof.
  intros l.
  destruct (shown_rows_last_max l 2%Z ltac:(discriminate) ltac:(lia))
    as (i & r & Hlast & _ & Hmax & _).
  split; [discriminate|]. split; [lia|]. split; [reflexivity|].
  by exists i, r.
Defined.

(** X7. A record added that is not smaller than any record of its track
    is shown as the last row (for any [lastk >= 1]), under the index it
    has in the stored list, which is the number of records the track had. In
    particular the first record of a new track is shown as row 0. *)
Theorem added_record_shown_last form seqs tid (lastk : Z) :
  let r := SeqRecord (first_frame_input form) (last_frame_input form) tid
                     (visible_number_input form) in
  let old := default [] (PyDict.get tid seqs) in
  add_pressed form = true → (1 ≤ lastk)%Z →
  (∀ r', r' ∈ old → ¬ record_lt r r') →
  ∃ l, PyDict.get tid (adding_sequences form seqs tid) = Some l
       ∧ last (shown_rows l lastk) = Some (length old, r).
Proof.
  intros r old Hpressed Hk Hmax.
  exists (old ++ [r]). split; [by apply adding_sequences_get|].
  destruct (shown_rows_last_dominates (old ++ [r]) lastk) as ([i r0] & Hlast & Hin & Hdom);
    [by destruct old | done |].
  rewrite Hlast. f_equal.
  apply PyListFacts.enumerate_lookup in Hin.
  assert (Hnew : (old ++ [r]) !! length old = Some r) by (by apply list_lookup_middle).
  pose proof (lookup_lt_Some _ _ _ Hin) as Hi. rewrite length_app in Hi. simpl in Hi.
  destruct (Hdom (length old, r)) as [Heq|[Hlt|[Heq Hidx]]];
    [by apply PyListFacts.enumerate_lookup| | |]; simpl in *.
  - by injection Heq as <- <-.
  - exfalso. destruct (decide (i = length old)) as [->|Hne].
    + rewrite Hnew in Hin. injection Hin as <-. by apply record_lt_irrefl in Hlt.
    + rewrite lookup_app_l in Hin by lia.
      apply (Hmax r0); [by eapply list_elem_of_lookup_2 | done].
  - lia.
Qed.

Lemma added_record_shown_last_witness :
  let form := AddForm 0 40 50 true in
  let seqs : sequences := [(5%Z, [SeqRecord 10 20 5 3; SeqRecord 25 30 5 1])] in
  add_pressed form = true ∧ (1 ≤ 1)%Z
  ∧ ∃ l, PyDict.get 5%Z (adding_sequences form seqs 5) = Some l
         ∧ last (shown_rows l 1) = Some (2, SeqRecord 40 50 5 0).
Proof.
  intros form seqs. split; [reflexivity|]. split; [lia|].
  apply (added_record_shown_last form seqs 5%Z 1%Z eq_refl ltac:(lia)).
  intros r' Hr'. unfold record_lt.
  apply elem_of_cons in Hr' as [->|Hr'].
  - simpl. lia.
  - apply list_elem_of_singleton in Hr' as ->. simpl. lia.
Defined.
End last_row.

(** ** The grid as a window on the track *)

Section grid_window.

(** The indices of the grid run through one arithmetic progression, across
    the row breaks. *)
Lemma grid_abs_nos_linear (frame_no : Z) (n_rows N : nat) (stride : Z) :
  grid_abs_nos frame_no n_rows N stride
  = (fun k => frame_no - (Z.of_nat N - 1) / 2 * stride + Z.of_nat k * stride)%Z
      <$> seq 0 (n_rows * N).
Proof.
  set (g := fun row : nat =>
              (fun i => abs_no (rel_no N stride i) (row_frame_no frame_no N stride row))
                <$> seq 0 N).
  assert (Hg : ∀ r, length (g r) = N).
  { intros r. unfold g. by rewrite length_fmap, length_seq. }
  apply (list_eq_same_length _ _ (n_rows * N)).
  - by rewrite length_fmap, length_seq.
  - apply (length_bind_rows g N 0 n_rows Hg).
  - intros k x y Hk Hx Hy.
    assert (HN : 0 < N) by (destruct N; lia).
    assert (Hr : k / N < n_rows) by (apply Nat.Div0.div_lt_upper_bound; lia).
    assert (Hc : k mod N < N) by (apply Nat.mod_upper_bound; lia).
    assert (Hkrc : k = k / N * N + k mod N).
    { pose proof (Nat.div_mod_eq k N). lia. }
    change (grid_abs_nos frame_no n_rows N stride) with (seq 0 n_rows ≫= g) in Hx.
    rewrite Hkrc in Hx at 1.
    rewrite (lookup_bind_rows g N 0 n_rows _ _ Hg Hr Hc) in Hx.
    unfold g in Hx. rewrite list_lookup_fmap, lookup_seq_lt in Hx by done.
    rewrite list_lookup_fmap, lookup_seq_lt in Hy by done.
    simpl in Hx, Hy. injection Hx as <-. injection Hy as <-.
    unfold abs_no, rel_no, row_frame_no.
    set (half := ((Z.of_nat N - 1) / 2)%Z).
    rewrite Hkrc at 3. rewrite Nat2Z.inj_add, Nat2Z.inj_mul. ring.
Qed.

(** X8. The grid is one strided window on the track: its indices, read
    row after row, start at [frame_no - ((N-1)//2) * stride] and go up by
    [stride] from each cell to the next, also from the end of a row to the
    start of the next row; with a stride other than 0 no frame is shown
    twice. *)
Theorem grid_progression (frame_no : Z) (n_rows N : nat) (stride : Z) :
  grid_abs_nos frame_no n_rows N stride
  = (fun k => frame_no - (Z.of_nat N - 1) / 2 * stride + Z.of_nat k * stride)%Z
      <$> seq 0 (n_rows * N)
  ∧ (stride ≠ 0%Z → NoDup (grid_abs_nos frame_no n_rows N stride)).
Proof.
  split; [apply grid_abs_nos_linear|].
  intros Hstride. rewrite grid_abs_nos_linear.
  apply NoDup_fmap_2; [|apply NoDup_seq].
  intros k1 k2 Heq. apply Nat2Z.inj. nia.
Qed.

Lemma grid_progression_witness :
  grid_abs_nos 100 2 3 5 = [95; 100; 105; 110; 115; 120]%Z
  ∧ (5 ≠ 0)%Z
  ∧ NoDup (grid_abs_nos 100 2 3 5).
Proof.
  split; [reflexivity|]. split; [lia|].
  exact (proj2 (grid_progression 100 2 3 5) ltac:(lia)).
Defined.

(** X9. Moving the frame slider by one step, [(n_rows-1) *
    images_per_row * stride], turns the last row of the grid into the
    first row; with a stride other than 0 the two positions overlap in
    exactly that row of indices: a frame index is in both grids if and
    only if it is in the last row of the first. *)
Theorem grid_paging_overlap (frame_no : Z) (n_rows N : nat) (stride : Z) :
  1 ≤ n_rows →
  let old_grid := grid_abs_nos frame_no n_rows N stride in
  let new_grid :=
    grid_abs_nos (frame_no + frame_step n_rows N stride) n_rows N stride in
  drop ((n_rows - 1) * N) old_grid = take N new_grid
  ∧ (stride ≠ 0%Z →
     ∀ a, a ∈ old_grid ∧ a ∈ new_grid ↔ a ∈ drop ((n_rows - 1) * N) old_grid).
Proof.
  intros Hrows old_grid new_grid.
  assert (Hrow : drop ((n_rows - 1) * N) old_grid = take N new_grid).
  { unfold old_grid, new_grid. rewrite !grid_abs_nos_linear.
    rewrite <- fmap_drop, <- fmap_take, drop_seq, take_seq.
    replace (n_rows * N - (n_rows - 1) * N) with N by nia.
    replace (N `min` (n_rows * N)) with N by nia.
    apply (list_eq_same_length _ _ N); [by rewrite length_fmap, length_seq..|].
    intros j x y Hj.
    rewrite !list_lookup_fmap, !lookup_seq_lt by done. simpl.
    intros [= <-] [= <-]. unfold frame_step.
    rewrite Nat2Z.inj_add, Nat2Z.inj_mul, Nat2Z.inj_sub by lia.
    change (Z.of_nat 0) with 0%Z. change (Z.of_nat 1) with 1%Z. ring. }
  split; [exact Hrow|]. intros Hstride a. split.
  - intros [Hold Hnew]. unfold old_grid, new_grid in *.
    rewrite grid_abs_nos_linear in *.
    apply list_elem_of_fmap in Hold as (k1 & -> & Hk1%elem_of_seq).
    apply list_elem_of_fmap in Hnew as (k2 & Heq & Hk2%elem_of_seq).
    rewrite <- fmap_drop, drop_seq.
    apply list_elem_of_fmap. exists k1. split; [done|].
    apply elem_of_seq. unfold frame_step in Heq.
    assert (Hk : (Z.of_nat k1 = (Z.of_nat n_rows - 1) * Z.of_nat N + Z.of_nat k2)%Z)
      by nia.
    nia.
  - intros Hin. split.
    + by apply (subseteq_drop ((n_rows - 1) * N)).
    + rewrite Hrow in Hin. by apply (subseteq_take N).
Qed.

Lemma grid_paging_overlap_witness :
  1 ≤ 3
  ∧ frame_step 3 2 5 = 20%Z
  ∧ grid_abs_nos 100 3 2 5 = [100; 105; 110; 115; 120; 125]%Z
  ∧ grid_abs_nos (100 + frame_step 3 2 5) 3 2 5 = [120; 125; 130; 135; 140; 145]%Z
  ∧ drop ((3 - 1) * 2) (grid_abs_nos 100 3 2 5)
    = take 2 (grid_abs_nos (100 + frame_step 3 2 5) 3 2 5)
  ∧ (5 ≠ 0)%Z
  ∧ (120%Z ∈ grid_abs_nos 100 3 2 5
     ∧ 120%Z ∈ grid_abs_nos (100 + frame_step 3 2 5) 3 2 5
     ↔ 120%Z ∈ drop ((3 - 1) * 2) (grid_abs_nos 100 3 2 5)).
Proof.
  split; [lia|]. split; [reflexivity|]. split; [reflexivity|].
  split; [reflexivity|].
  destruct (grid_paging_overlap 100 3 2 5 ltac:(lia)) as [Hrow Honly].
  split; [exact Hrow|]. split; [lia|].
  exact (Honly ltac:(lia) 120%Z).
Defined.
End grid_window.

(** ** Captions, the pointer cell and the transforms that are off *)

Section cells.
Context {px : Type} (px0 : px).
#[local] Abbreviation array3 := (list (list (list px))).
Variable resize : array3 → nat * nat → result array3.
Variable brightness_contrast_adjust : array3 → Q → Q → bool → result array3.
Variable clahe : array3 → Q → nat * nat → result array3.

Lemma arrow_not_a_number (z : Z) : PyInt.str z ≠ "↑"%string.
Proof.
  intros Heq. pose proof (PyIntFacts.int_str z) as Hint.
  rewrite Heq in Hint. discriminate Hint.
Qed.

Ltac caption_case :=
  simpl; repeat (split || intros);
  try done;
  try (exfalso; by eapply arrow_not_a_number);
  try (by apply PyIntFacts.int_str);
  try (destruct_and?; done).

(** X10. A row that [show_images] renders has [N] cells, and with a
    stride other than 0 the caption of column [i] is the arrow if the row
    is drawn with [frame_arrow] and [i] is the column [(N-1)//2], and
    otherwise [str] of the absolute frame index of the cell with
    [show_caption] and the empty string without. So the arrow is the
    caption of the column [(N-1)//2] and of no other, a row drawn without
    [frame_arrow] has no arrow, and [int] reads a numeric caption back as
    the index. The row is rendered wherever every frame of the track can
    be enhanced at the cell size. *)
Theorem show_images_captions frame_no frames (N : nat) (stride : Z) tf
    (show_caption frame_arrow : bool) :
  1 ≤ N → stride ≠ 0%Z →
  ((∀ frame, frame ∈ frames →
      ∃ shown, enhanced resize brightness_contrast_adjust clahe
                        (800 / N) (800 / N) tf frame = Ok shown) →
   ∃ cells,
     show_images px0 resize brightness_contrast_adjust clahe frame_no frames N
                 stride tf show_caption frame_arrow = Ok cells)
  ∧ ∀ cells,
      show_images px0 resize brightness_contrast_adjust clahe frame_no frames N
                  stride tf show_caption frame_arrow = Ok cells →
      length cells = N
      ∧ ∀ i, i < N →
          ∃ frame caption,
            cells !! i = Some (frame, caption)
            ∧ caption
              = (if frame_arrow && (i =? (N - 1) / 2)%nat then "↑"%string
                 else if show_caption
                      then PyInt.str (abs_no (rel_no N stride i) frame_no)
                      else ""%string)
            ∧ (caption = "↑"%string ↔ frame_arrow = true ∧ i = (N - 1) / 2)
            ∧ (show_caption = true → caption ≠ "↑"%string →
               PyInt.int caption = Some (abs_no (rel_no N stride i) frame_no)).
Proof.
  intros HN Hstride. split; [by apply show_images_Ok|].
  intros cells Hcells.
  destruct (show_images_cells _ _ _ _ _ _ _ _ _ _ _ _ Hcells)
    as (_ & Hlen & Hcell).
  split; [done|]. intros i Hi.
  destruct (Hcell i Hi) as (frame & Hlook & _).
  exists frame. eexists. split; [exact Hlook|].
  pose proof (rel_no_zero N stride i HN Hstride) as Hzero.
  unfold get_caption.
  destruct (Nat.eqb_spec i ((N - 1) / 2)) as [Hi2|Hi2].
  - rewrite (bool_decide_eq_false_2 (rel_no N stride i ≠ 0%Z))
      by (intros Hne; by apply Hne, Hzero).
    destruct frame_arrow, show_caption; caption_case.
  - rewrite (bool_decide_eq_true_2 (rel_no N stride i ≠ 0%Z))
      by (by intros ?%Hzero).
    rewrite andb_false_r.
    destruct show_caption; caption_case.
Qed.

(** X11. For a [frame_no] that is an index of the track, as the frame
    slider yields it, the pointer cell of the row (column [(N-1)//2]) is
    never the blank frame of the out-of-range case: it is resolved to
    frame [frame_no] itself, resized, enhanced and flipped, and a rendered
    row shows that frame under the arrow. *)
Theorem pointer_cell_shows_frame frame_no frames (N : nat) (stride : Z) tf
    (show_caption : bool) frame :
  1 ≤ N → (0 ≤ frame_no)%Z → frames !! Z.to_nat frame_no = Some frame →
  get_frame px0 resize brightness_contrast_adjust clahe frame_no frames
            (800 / N) (800 / N) tf (rel_no N stride ((N - 1) / 2))
  = (resized ← resize frame (800 / N, 800 / N);
     match tf with
     | Some tf =>
         adjusted ← brightness_contrast_adjust resized (1 + tf_brightness tf)%Q
                                               (tf_contrast tf) true;
         match tf_clahe tf with
         | Some c =>
             equalized ← clahe adjusted (clip_limit c) (tile_grid_size c);
             Ok (flip_channels equalized)
         | None => Ok (flip_channels adjusted)
         end
     | None => Ok (flip_channels resized)
     end)
  ∧ ∀ cells,
      show_images px0 resize brightness_contrast_adjust clahe frame_no frames N
                  stride tf show_caption true = Ok cells →
      ∃ shown,
        get_frame px0 resize brightness_contrast_adjust clahe frame_no frames
                  (800 / N) (800 / N) tf (rel_no N stride ((N - 1) / 2))
        = Ok shown
        ∧ cells !! ((N - 1) / 2) = Some (shown, "↑"%string).
Proof.
  intros HN Hpos Hframe.
  assert (Hrel : rel_no N stride ((N - 1) / 2) = 0%Z).
  { unfold rel_no. rewrite (half_of_nat N HN). lia. }
  split.
  - rewrite Hrel. apply get_frame_in_range; unfold abs_no; simpl; done.
  - intros cells Hcells.
    destruct (show_images_cells _ _ _ _ _ _ _ _ _ _ _ _ Hcells)
      as (_ & _ & Hcell).
    destruct (Hcell _ (half_lt N HN)) as (shown & Hlook & Hshown).
    exists shown. split; [done|]. rewrite Hlook. do 2 f_equal.
    rewrite Hrel. unfold get_caption. by destruct show_caption.
Qed.

(** X12. With the CLAHE checkbox off, the grid [labeling] renders does not
    involve the equalization routine at all: it is the same for any two
    such routines, and for any position of the three CLAHE sliders. *)
Theorem clahe_off_unused (clahe1 clahe2 : array3 → Q → nat * nat → result array3)
    (brightness contrast clip1 clip2 : Q) (gh1 gw1 gh2 gw2 : nat)
    frame_no frames (n_rows N : nat) (stride : Z) :
  labeling_images px0 resize brightness_contrast_adjust clahe1 frame_no frames
                  n_rows N stride
                  (choose_image_transforms brightness contrast false clip1 gh1 gw1)
  = labeling_images px0 resize brightness_contrast_adjust clahe2 frame_no frames
                    n_rows N stride
                    (choose_image_transforms brightness contrast false clip2 gh2 gw2).
Proof.
  unfold labeling_images, choose_image_transforms.
  apply mapM_result_ext. intros row. unfold show_images.
  destruct (N =? 0)%nat; [done|].
  apply mapM_result_ext. intros i. unfold get_frame. simpl.
  by repeat case_match.
Qed.
End cells.

Lemma show_images_captions_witness :
  let frames : list (list (list (list Z))) := [ [[[1; 2; 3]]] ]%Z in
  let resize := resize_checked (fun f _ => f) in
  let clahe := fun (f : list (list (list Z))) (_ : Q) (_ : nat * nat) => Ok f in
  1 ≤ 400 ∧ (2 ≠ 0)%Z
  ∧ ∃ cells,
      show_images 0%Z resize brightness_contrast_adjust_uint8 clahe
                  0 frames 400 2 None true true = Ok cells
      ∧ length cells = 400
      ∧ (∃ frame, cells !! 199 = Some (frame, "↑"%string))
      ∧ (∃ frame, cells !! 200 = Some (frame, "2"%string))
      ∧ (∃ frame, cells !! 0 = Some (frame, "-398"%string)).
Proof.
  intros frames resize clahe. split; [lia|]. split; [lia|].
  destruct (show_images_captions 0%Z resize brightness_contrast_adjust_uint8
              clahe 0%Z frames 400 2%Z None true true ltac:(lia) ltac:(lia))
    as (Hok & Hcaptions).
  destruct Hok as [cells Hcells].
  { intros frame [->|[]%elem_of_nil]%elem_of_cons.
    eexists. vm_compute. reflexivity. }
  exists cells. split; [exact Hcells|].
  destruct (Hcaptions cells Hcells) as (Hlen & Hcell).
  split; [exact Hlen|].
  destruct (Hcell 199 ltac:(lia)) as (f1 & c1 & H1 & -> & _).
  destruct (Hcell 200 ltac:(lia)) as (f2 & c2 & H2 & -> & _).
  destruct (Hcell 0 ltac:(lia)) as (f3 & c3 & H3 & -> & _).
  split; [exists f1; exact H1|]. split; [exists f2; exact H2|].
  exists f3; exact H3.
Defined.

Lemma pointer_cell_shows_frame_witness :
  let frames : list (list (list (list Z))) := [ [[[1; 2; 3]]]; [[[4; 5; 6]]] ]%Z in
  let resize := resize_checked (fun f _ => f) in
  let clahe := fun (f : list (list (list Z))) (_ : Q) (_ : nat * nat) => Ok f in
  let tf := Some (ImageTransforms (1 # 2) (1 # 10) None) in
  1 ≤ 400 ∧ (0 ≤ 1)%Z
  ∧ frames !! Z.to_nat 1 = Some [[[4; 5; 6]]]%Z
  ∧ get_frame 0%Z resize brightness_contrast_adjust_uint8 clahe 1 frames
              (800 / 400) (800 / 400) tf (rel_no 400 5 ((400 - 1) / 2))
    = Ok [[[34; 33; 31]]]%Z
  ∧ ∃ cells,
      show_images 0%Z resize brightness_contrast_adjust_uint8 clahe
                  1 frames 400 5 tf true true = Ok cells
      ∧ cells !! ((400 - 1) / 2) = Some ([[[34; 33; 31]]]%Z, "↑"%string).
Proof.
  intros frames resize clahe tf. split; [lia|]. split; [lia|].
  split; [reflexivity|].
  destruct (pointer_cell_shows_frame 0%Z resize brightness_contrast_adjust_uint8
              clahe 1%Z frames 400 5%Z tf true [[[4; 5; 6]]]%Z
              ltac:(lia) ltac:(lia) eq_refl) as [Hget Hrow].
  assert (Hshown : get_frame 0%Z resize brightness_contrast_adjust_uint8 clahe
                     1 frames (800 / 400) (800 / 400) tf
                     (rel_no 400 5 ((400 - 1) / 2))
                   = Ok [[[34; 33; 31]]]%Z).
  { rewrite Hget. vm_compute. reflexivity. }
  split; [exact Hshown|].
  destruct (show_images 0%Z resize brightness_contrast_adjust_uint8 clahe 1
              frames 400 5 tf true true) as [cells|e] eqn:Hcells;
    [|vm_compute in Hcells; discriminate Hcells].
  exists cells. split; [reflexivity|].
  destruct (Hrow cells eq_refl) as (shown & Hs & Hlook).
  rewrite Hshown in Hs. injection Hs as <-. exact Hlook.
Defined.

(** ** The channel flip *)

Section flip.
Context {px : Type}.
Implicit Types (frame : list (list (list px))).

Lemma has_shape_flip h w c frame :
  has_shape h w c (flip_channels frame) = has_shape h w c frame.
Proof.
  unfold has_shape, flip_channels. rewrite length_fmap. f_equal.
  induction frame as [|row frame IH]; [done|].
  rewrite fmap_cons. simpl. rewrite IH, length_fmap. f_equal. f_equal.
  clear IH. induction row as [|p row IH]; [done|].
  rewrite fmap_cons. simpl. by rewrite IH, length_reverse.
Qed.

(** X13. The channel flip moves no pixel: it reverses the channel values
    of every pixel in place, keeps the shape of the frame, and applied
    twice gives the frame back. *)
Theorem flip_channels_involutive frame :
  flip_channels (flip_channels frame) = frame
  ∧ (∀ h w c, has_shape h w c (flip_channels frame) = has_shape h w c frame)
  ∧ (∀ r col, pixel_at (flip_channels frame) r col
              = reverse <$> pixel_at frame r col).
Proof.
  split; [|split].
  - unfold flip_channels. rewrite <- list_fmap_compose.
    rewrite <- (list_fmap_id frame) at 2. apply list_fmap_ext.
    intros _ row _. simpl. rewrite <- list_fmap_compose.
    rewrite <- (list_fmap_id row) at 2. apply list_fmap_ext.
    intros _ p _. simpl. apply reverse_involutive.
  - intros h w c. apply has_shape_flip.
  - intros r col. unfold pixel_at, flip_channels.
    rewrite list_lookup_fmap. destruct (frame !! r) as [row|]; simpl; [|done].
    by rewrite list_lookup_fmap.
Qed.
End flip.

(** ** The archive: track ids and their frames *)

Section archive.
Context {F : Type}.
Implicit Types (archive : list (string * F)).

Lemma canonical_names_ids (names : list string) (ids : list Z) :
  Forall (fun name => ∃ k, name = PyInt.str k) names →
  Forall2 (fun name k =>
             match PyInt.int name with
             | Some k => Ok k
             | None => Raise ValueError
             end = Ok k) names ids →
  PyInt.str <$> ids = names.
Proof.
  intros Hnames Hall. induction Hall as [|name k names ids Hk _ IH]; [done|].
  apply Forall_cons in Hnames as [[k' ->] Hnames].
  rewrite PyIntFacts.int_str in Hk. injection Hk as ->.
  rewrite fmap_cons. by rewrite IH.
Qed.

(** X14. In an archive whose groups are named by the decimal form of
    their track ids, [get_track_ids] lists one id per group, in the order of
    the groups, and [load_images] finds the frames of every id listed. For
    any archive, a listed id loads exactly when its decimal form is a group
    name, so a group named ["05"] is listed as 5 and cannot be loaded
    unless there is a group ["5"] as well. *)
Theorem track_ids_load archive :
  (Forall (fun name => ∃ k, name = PyInt.str k) (PyDict.keys archive) →
     ∃ ids,
       get_track_ids archive = Ok ids
       ∧ PyInt.str <$> ids = PyDict.keys archive
       ∧ ∀ k, k ∈ ids →
           ∃ images, load_images k archive = Some images
                     ∧ (PyInt.str k, images) ∈ archive)
  ∧ (∀ k, is_Some (load_images k archive) ↔ PyInt.str k ∈ PyDict.keys archive).
Proof.
  assert (Hload : ∀ k, is_Some (load_images k archive)
                       ↔ PyInt.str k ∈ PyDict.keys archive).
  { intros k. unfold load_images.
    pose proof (PyDictFacts.get_None (PyInt.str k) archive) as Hnone.
    destruct (PyDict.get (PyInt.str k) archive) as [images|] eqn:Hget.
    - split; [|by eexists]. intros _.
      destruct (decide (PyInt.str k ∈ PyDict.keys archive)) as [|Hnot]; [done|].
      by apply Hnone in Hnot.
    - split; [by intros [? ?]|]. intros Hin. by apply Hnone in Hin. }
  split; [|done]. intros Hnames. unfold get_track_ids.
  set (f := fun name : string => _).
  destruct (mapM_result_Ok f (PyDict.keys archive)) as (ids & Hids & Hall).
  { intros name Hin. rewrite Forall_forall in Hnames.
    destruct (Hnames name Hin) as [k ->]. exists k. unfold f.
    by rewrite PyIntFacts.int_str. }
  exists ids. split; [done|].
  assert (Hstr : PyInt.str <$> ids = PyDict.keys archive).
  { by apply (canonical_names_ids (PyDict.keys archive) ids). }
  split; [done|]. intros k Hk.
  assert (Hin : PyInt.str k ∈ PyDict.keys archive).
  { rewrite <- Hstr. by apply list_elem_of_fmap_2. }
  apply Hload in Hin as [images Himages]. exists images. split; [done|].
  by apply PyDictKeys.get_elem_of.
Qed.
End archive.

Lemma track_ids_load_witness :
  let archive := [("3", [10; 11]); ("12", [20]); ("-4", [])]%string in
  Forall (fun name => ∃ k, name = PyInt.str k) (PyDict.keys archive)
  ∧ get_track_ids archive = Ok [3; 12; -4]%Z
  ∧ load_images 12 archive = Some [20]
  ∧ get_track_ids [("05", [1])]%string = Ok [5%Z]
  ∧ load_images 5 [("05", [1])]%string = None
  ∧ ∃ ids, get_track_ids archive = Ok ids
           ∧ PyInt.str <$> ids = PyDict.keys archive.
Proof.
  intros archive.
  assert (Hnames : Forall (fun name => ∃ k, name = PyInt.str k) (PyDict.keys archive)).
  { repeat constructor; [by exists 3%Z | by exists 12%Z | by exists (-4)%Z]. }
  destruct (proj1 (track_ids_load archive) Hnames) as (ids & Hids & Hstr & _).
  split; [exact Hnames|]. repeat (split; [reflexivity|]).
  by exists ids.
Defined.

(** ** The canvas of a whole track, and the copies it makes *)

Section canvas_runs.
Context {px : Type} (px0 : px).
#[local] Abbreviation array3 := (list (list (list px))).
Variable text_px : array3 → string → nat → nat → nat → px.

Lemma canvas_loop_copies n size :
  0 < n →
  ∀ frames idx (image : array3) h,
    shaped (n * size) (n * size) 3 image →
    Forall (fun l => ∃ img, h !! l = Some img ∧ shaped size size 3 img) frames →
    idx < n * n →
    ∃ image' extra,
      canvas_loop text_px n size idx frames image h = (Ok image', h ++ extra)
      ∧ length extra = Nat.min (length frames) (n * n - idx)
      ∧ ∀ k bbox pixels,
          k < n * n - idx → frames !! k = Some bbox → h !! bbox = Some pixels →
          extra !! k
          = Some (write_text text_px pixels (PyInt.str (Z.of_nat (idx + k)))).
Proof.
  intros Hn frames. induction frames as [|bbox rest IH];
    intros idx image h Himage Hvalid Hidx.
  { exists image, []. rewrite app_nil_r. split; [done|]. split; [done|].
    intros k bbox pixels _ Hk. by rewrite lookup_nil in Hk. }
  apply Forall_cons in Hvalid as [(pixels & Hbbox & Hpixels) Hrest].
  rewrite (canvas_loop_step text_px n size idx bbox rest image pixels h Hbbox)
    by lia.
  cbv zeta. set (tile := write_text text_px pixels (PyInt.str (Z.of_nat idx))).
  destruct (idx_div_lt idx n Hidx) as [Hi Hj].
  destruct (assign_block_square text_px (n * size) size image tile
              (idx / n * size) (idx mod n * size))
    as (image1 & Hassign & Himage1 & _);
    [done | by apply shaped_write_text | nia | nia |].
  replace ((idx / n + 1) * size) with (idx / n * size + size) by lia.
  replace ((idx mod n + 1) * size) with (idx mod n * size + size) by lia.
  rewrite Hassign.
  destruct (Nat.eqb_spec idx (n ^ 2 - 1)) as [Hlast|Hmore].
  - rewrite Nat.pow_2_r in Hlast.
    exists image1, [tile]. split; [done|]. split; [rewrite !length_cons, length_nil; lia|].
    intros k bbox' pixels' Hk Hlook Hpix.
    assert (k = 0) as -> by lia. simpl in Hlook. injection Hlook as <-.
    rewrite Hbbox in Hpix. injection Hpix as <-.
    by rewrite Nat.add_0_r.
  - rewrite Nat.pow_2_r in Hmore.
    destruct (IH (S idx) image1 (h ++ [tile])) as (image' & extra & Hloop & Hlen & Hcopies);
      [done | | lia |].
    { eapply Forall_impl; [exact Hrest|]. intros l (img & Hl & Himg).
      exists img. split; [by apply lookup_app_l_Some | done]. }
    exists image', (tile :: extra). rewrite Hloop. split.
    { by rewrite <- app_assoc. }
    split; [rewrite !length_cons, Hlen; lia|].
    intros k bbox' pixels' Hk Hlook Hpix. destruct k as [|k]; simpl in Hlook |- *.
    + injection Hlook as <-. rewrite Hbbox in Hpix. injection Hpix as <-.
      by rewrite Nat.add_0_r.
    + rewrite (Hcopies k bbox' pixels') by (try lia; try done;
        by apply lookup_app_l_Some).
      do 3 f_equal. lia.
Qed.

(** X15. For [n >= 1] and frames of the tile size, [canvas] allocates one
    new array for each frame it places and none for the frames it ignores:
    the heap grows by the smaller of the number of frames and [n * n], and
    the [k]-th new array is frame [k] with its index drawn on it. *)
Theorem canvas_copies (frames : list nat) (n size : nat) (h : list array3) :
  0 < n →
  Forall (fun bbox => ∃ pixels, h !! bbox = Some pixels
                                ∧ has_shape size size 3 pixels = true) frames →
  ∃ image extra,
    canvas px0 text_px frames n size h = (Ok image, h ++ extra)
    ∧ length extra = Nat.min (length frames) (n * n)
    ∧ ∀ k bbox pixels,
        k < n * n → frames !! k = Some bbox → h !! bbox = Some pixels →
        extra !! k
        = Some (write_text text_px pixels (PyInt.str (Z.of_nat k))).
Proof.
  intros Hn Hframes. unfold canvas. rewrite (Nat.mul_comm size n).
  destruct (canvas_loop_copies n size Hn frames 0
              (replicate (n * size) (replicate (n * size) (replicate 3 px0))) h)
    as (image & extra & Hloop & Hlen & Hcopies).
  { apply shaped_replicate. }
  { eapply Forall_impl; [exact Hframes|]. intros bbox (pixels & Hb & Hs).
    exists pixels. split; [done | by apply has_shape_shaped]. }
  { nia. }
  exists image, extra. split; [done|]. rewrite Nat.sub_0_r in Hlen.
  split; [done|]. intros k bbox pixels Hk. apply Hcopies. lia.
Qed.

(** X16. The canvas of the sidebar button, on a track of 32 by 32 frames,
    is built without an error, also for an empty track; with [n] the
    integer square root of the number of frames it has [n] by [n] tiles,
    every one of them filled with a frame of the track, in order, and fewer
    than [2 * n + 1] frames at the end of the track are left out. *)
Theorem track_canvas_full (frames : list nat) (h : list array3) :
  Forall (fun bbox => ∃ pixels, h !! bbox = Some pixels
                                ∧ has_shape 32 32 3 pixels = true) frames →
  let n := Nat.sqrt (length frames) in
  ∃ image extra,
    track_canvas px0 text_px frames h = (Ok image, h ++ extra)
    ∧ has_shape (n * 32) (n * 32) 3 image = true
    ∧ (∀ R C, R < n * 32 → C < n * 32 →
         ∃ bbox pixels,
           frames !! (R / 32 * n + C / 32) = Some bbox
           ∧ h !! bbox = Some pixels
           ∧ pixel_at image R C
             = pixel_at (write_text text_px pixels
                           (PyInt.str (Z.of_nat (R / 32 * n + C / 32))))
                        (R mod 32) (C mod 32))
    ∧ n * n ≤ length frames < n * n + (2 * n + 1).
Proof.
  intros Hframes n. unfold track_canvas. fold n.
  pose proof (Nat.sqrt_spec (length frames) ltac:(lia)) as Hsqrt. fold n in Hsqrt.
  destruct (decide (n = 0)) as [Hzero|Hpos].
  - rewrite Hzero in *. assert (Hnil : frames = []).
    { apply nil_length_inv. lia. }
    rewrite Hnil. exists [], []. rewrite app_nil_r. simpl.
    split; [done|]. split; [done|]. split; [intros R C HR; lia | lia].
  - unfold canvas. rewrite (Nat.mul_comm 32 n).
    destruct (canvas_loop_spec text_px n 32 ltac:(lia) frames 0
                (replicate (n * 32) (replicate (n * 32) (replicate 3 px0))) h)
      as (image & extra & Hloop & Himage & Hpx).
    { apply shaped_replicate. }
    { eapply Forall_impl; [exact Hframes|]. intros bbox (pixels & Hb & Hs).
      exists pixels. split; [done | by apply has_shape_shaped]. }
    { nia. }
    exists image, extra. split; [done|].
    split; [by apply has_shape_shaped|]. split; [|lia].
    intros R C HR HC. pose proof (tile_lt R C 32 n HR HC) as Ht.
    destruct (lookup_lt_is_Some_2 frames (R / 32 * n + C / 32)) as [bbox Hbbox];
      [lia|].
    rewrite Forall_forall in Hframes.
    destruct (Hframes bbox) as (pixels & Hpixels & _);
      [by eapply list_elem_of_lookup_2|].
    exists bbox, pixels. split; [done|]. split; [done|].
    rewrite (Hpx R C HR HC), decide_True, Nat.sub_0_r, Hbbox by lia. simpl.
    by rewrite Hpixels.
Qed.
End canvas_runs.

Lemma canvas_copies_witness :
  let draw := fun (img : list (list (list Z))) (_ : string) (r c ch : nat) =>
                match value_at img r c ch with
                | Some v => (v + 100)%Z
                | None => 0%Z
                end in
  let h := [ [[[1; 2; 3]]]; [[[4; 5; 6]]] ]%Z in
  0 < 1
  ∧ canvas 0%Z draw [1; 0; 1] 1 1 h
    = (Ok [[[104; 105; 106]]]%Z, h ++ [ [[[104; 105; 106]]] ]%Z)
  ∧ ∃ image extra,
      canvas 0%Z draw [1; 0; 1] 1 1 h = (Ok image, h ++ extra)
      ∧ length extra = Nat.min 3 (1 * 1).
Proof.
  intros draw h. split; [lia|]. split; [reflexivity|].
  destruct (canvas_copies 0%Z draw [1; 0; 1] 1 1 h ltac:(lia))
    as (image & extra & Hrun & Hlen & _).
  { repeat (constructor; [eexists; split; reflexivity|]). constructor. }
  by exists image, extra.
Defined.

Lemma track_canvas_full_witness :
  let tile : list (list (list Z)) := replicate 32 (replicate 32 [7; 8; 9]%Z) in
  let h := [tile; tile] in
  Forall (fun bbox => ∃ pixels, h !! bbox = Some pixels
                                ∧ has_shape 32 32 3 pixels = true) [0; 1; 1]
  ∧ Nat.sqrt (length [0; 1; 1]) = 1
  ∧ ∃ image extra,
      track_canvas 0%Z (fun _ _ _ _ _ => 1%Z) [0; 1; 1] h = (Ok image, h ++ extra)
      ∧ has_shape (1 * 32) (1 * 32) 3 image = true.
Proof.
  intros tile h.
  assert (Hvalid : Forall (fun bbox => ∃ pixels, h !! bbox = Some pixels
                             ∧ has_shape 32 32 3 pixels = true) [0; 1; 1]).
  { repeat (constructor; [exists tile; split; [reflexivity | vm_compute; reflexivity]|]).
    constructor. }
  split; [exact Hvalid|]. split; [reflexivity|].
  destruct (track_canvas_full 0%Z (fun _ _ _ _ _ => 1%Z) [0; 1; 1] h Hvalid)
    as (image & extra & Hrun & Hshape & _).
  by exists image, extra.
Defined.
